(** * Zerg creep colony: terrain classification and creep spread engine

    A shallow embedding of [core.js]: the world generator [initGrid], the
    hatchery spawner [maybeSpawnHatcheryNear], the resource discovery
    [checkResource] and the cellular-automaton step [spreadCreep].

    Numbers.  Grid coordinates, indices and counters are JavaScript numbers
    that only ever hold integers; they are modelled by [Z].  The two places
    where the source divides by [cols] use [num], which adds [NaN] and the
    infinities a division by zero produces.  Heights, ages, probabilities and
    the boost are modelled by exact rationals [Q]: every constant of the
    source is a decimal literal, and the values [resourceBoost] takes
    (1, 1.5, ..., 3) are exact in binary floating point as well.  Rounding
    of the other quantities is not modelled.

    Randomness.  [Math.random()] is a stream [rnd : nat -> Q] read through a
    cursor kept in the world ([rng]). *)

From Stdlib Require Import ZArith QArith Qround Qminmax Qabs Lia.
From stdpp Require Import base list.

Open Scope Z_scope.

(** ** JavaScript numbers that may come from a division by zero *)

Inductive num : Type :=
| Fin (z : Z)
| NaN
| PInf
| NInf.

(** [a % b] on integers: the sign follows the dividend; [b = 0] gives NaN. *)
Definition js_rem (a b : Z) : num :=
  if b =? 0 then NaN else Fin (Z.rem a b).

(** [Math.floor(a / b)] on integers, [b] being [+0] when it is zero. *)
Definition js_floor_div (a b : Z) : num :=
  if b =? 0 then (if a =? 0 then NaN else if 0 <? a then PInf else NInf)
  else Fin (a / b).

Definition num_add (a : num) (d : Z) : num :=
  match a with
  | Fin z => Fin (z + d)
  | other => other
  end.

(** [a < b]: every comparison with NaN is false. *)
Definition num_ltb (a : num) (b : Z) : bool :=
  match a with
  | Fin z => z <? b
  | NInf => true
  | NaN | PInf => false
  end.

(** [a >= b]. *)
Definition num_geb (a : num) (b : Z) : bool :=
  match a with
  | Fin z => b <=? z
  | PInf => true
  | NaN | NInf => false
  end.

(** ** Rationals: the comparisons of the source as booleans *)

Definition Qlt_bool (a b : Q) : bool := negb (Qle_bool b a).

(** ** Typed arrays

    A read outside the array gives [undefined] ([None]); a write outside
    the array is ignored.  Neither throws. *)

Definition aget {A : Type} (a : list A) (i : Z) : option A :=
  if i <? 0 then None else a !! Z.to_nat i.

Definition aset {A : Type} (a : list A) (i : Z) (v : A) : list A :=
  if i <? 0 then a else <[Z.to_nat i := v]> a.

(** [creepGrid[idx]] used as a condition: [undefined] and [0] are falsy. *)
Definition truthy (o : option Z) : bool :=
  match o with
  | Some v => negb (v =? 0)
  | None => false
  end.

(** ** Index ranges of the [for] loops *)

(** [lo, lo+1, ..., lo+n-1]. *)
Fixpoint zseq (lo : Z) (n : nat) : list Z :=
  match n with
  | O => []
  | S k => lo :: zseq (lo + 1) k
  end.

(** [for (let i = 0; i < n; i++)]. *)
Definition upto (n : Z) : list Z := zseq 0 (Z.to_nat n).

(** [for (let d = -r; d <= r; d++)]. *)
Definition around (r : Z) : list Z := zseq (- r) (Z.to_nat (2 * r + 1)).

(** The nested loops [for y ... for x ...] over the whole grid, as (x, y). *)
Definition cells (cols rows : Z) : list (Z * Z) :=
  y ← upto rows; x ← upto cols; [(x, y)].

(** The nested loops [for dy = -r..r, for dx = -r..r], as (dx, dy). *)
Definition offsets (r : Z) : list (Z * Z) :=
  dy ← around r; dx ← around r; [(dx, dy)].

Definition inGrid (cols rows x y : Z) : bool :=
  negb ((x <? 0) || (cols <=? x) || (y <? 0) || (rows <=? y)).

(** ** The data of the simulation *)

Record deposit : Type := mkDeposit {
  d_x : Z;
  d_y : Z;
  d_radius : Q;
  depleted : bool
}.

Inductive btype : Type := hatchery | mineralpatch | extractor.

Record building : Type := mkBuilding {
  b_x : Z;
  b_y : Z;
  b_type : btype;
  b_pulse : Q
}.

Record corner : Type := mkCorner {
  c_x : Z;
  c_y : Z;
  dirX : Z;
  dirY : Z
}.

(** The global variables of [core.js] the simulation reads or writes.
    The ripple list and the shading textures belong to the renderer. *)
Record world : Type := mkWorld {
  cols : Z;
  rows : Z;
  creepGrid : list Z;            (* Uint8Array *)
  creepAge : list Q;             (* Float32Array *)
  terrainHeight : list Q;        (* Float32Array *)
  terrainType : list Z;          (* Uint8Array *)
  minerals : list deposit;
  vespene : list deposit;
  buildings : list building;
  startCorner : corner;
  noiseTexture1 : list Q;
  totalVisibleCells : Z;
  isSaturated : bool;
  creepCount : Z;
  resourceBoost : Q;
  mineralsGathered : Z;
  vespeneGathered : Z;
  activeEdges : list Z;          (* Set, in insertion order *)
  rng : nat                      (* number of Math.random() calls so far *)
}.

Definition set_creepGrid (w : world) (v : list Z) : world :=
  mkWorld (cols w) (rows w) v (creepAge w) (terrainHeight w) (terrainType w)
    (minerals w) (vespene w) (buildings w) (startCorner w) (noiseTexture1 w)
    (totalVisibleCells w) (isSaturated w) (creepCount w) (resourceBoost w)
    (mineralsGathered w) (vespeneGathered w) (activeEdges w) (rng w).

Definition set_creepAge (w : world) (v : list Q) : world :=
  mkWorld (cols w) (rows w) (creepGrid w) v (terrainHeight w) (terrainType w)
    (minerals w) (vespene w) (buildings w) (startCorner w) (noiseTexture1 w)
    (totalVisibleCells w) (isSaturated w) (creepCount w) (resourceBoost w)
    (mineralsGathered w) (vespeneGathered w) (activeEdges w) (rng w).

Definition set_minerals (w : world) (v : list deposit) : world :=
  mkWorld (cols w) (rows w) (creepGrid w) (creepAge w) (terrainHeight w)
    (terrainType w) v (vespene w) (buildings w) (startCorner w)
    (noiseTexture1 w) (totalVisibleCells w) (isSaturated w) (creepCount w)
    (resourceBoost w) (mineralsGathered w) (vespeneGathered w)
    (activeEdges w) (rng w).

Definition set_vespene (w : world) (v : list deposit) : world :=
  mkWorld (cols w) (rows w) (creepGrid w) (creepAge w) (terrainHeight w)
    (terrainType w) (minerals w) v (buildings w) (startCorner w)
    (noiseTexture1 w) (totalVisibleCells w) (isSaturated w) (creepCount w)
    (resourceBoost w) (mineralsGathered w) (vespeneGathered w)
    (activeEdges w) (rng w).

Definition set_buildings (w : world) (v : list building) : world :=
  mkWorld (cols w) (rows w) (creepGrid w) (creepAge w) (terrainHeight w)
    (terrainType w) (minerals w) (vespene w) v (startCorner w)
    (noiseTexture1 w) (totalVisibleCells w) (isSaturated w) (creepCount w)
    (resourceBoost w) (mineralsGathered w) (vespeneGathered w)
    (activeEdges w) (rng w).

Definition set_isSaturated (w : world) (v : bool) : world :=
  mkWorld (cols w) (rows w) (creepGrid w) (creepAge w) (terrainHeight w)
    (terrainType w) (minerals w) (vespene w) (buildings w) (startCorner w)
    (noiseTexture1 w) (totalVisibleCells w) v (creepCount w)
    (resourceBoost w) (mineralsGathered w) (vespeneGathered w)
    (activeEdges w) (rng w).

Definition set_creepCount (w : world) (v : Z) : world :=
  mkWorld (cols w) (rows w) (creepGrid w) (creepAge w) (terrainHeight w)
    (terrainType w) (minerals w) (vespene w) (buildings w) (startCorner w)
    (noiseTexture1 w) (totalVisibleCells w) (isSaturated w) v
    (resourceBoost w) (mineralsGathered w) (vespeneGathered w)
    (activeEdges w) (rng w).

Definition set_resourceBoost (w : world) (v : Q) : world :=
  mkWorld (cols w) (rows w) (creepGrid w) (creepAge w) (terrainHeight w)
    (terrainType w) (minerals w) (vespene w) (buildings w) (startCorner w)
    (noiseTexture1 w) (totalVisibleCells w) (isSaturated w) (creepCount w)
    v (mineralsGathered w) (vespeneGathered w) (activeEdges w) (rng w).

Definition set_mineralsGathered (w : world) (v : Z) : world :=
  mkWorld (cols w) (rows w) (creepGrid w) (creepAge w) (terrainHeight w)
    (terrainType w) (minerals w) (vespene w) (buildings w) (startCorner w)
    (noiseTexture1 w) (totalVisibleCells w) (isSaturated w) (creepCount w)
    (resourceBoost w) v (vespeneGathered w) (activeEdges w) (rng w).

Definition set_vespeneGathered (w : world) (v : Z) : world :=
  mkWorld (cols w) (rows w) (creepGrid w) (creepAge w) (terrainHeight w)
    (terrainType w) (minerals w) (vespene w) (buildings w) (startCorner w)
    (noiseTexture1 w) (totalVisibleCells w) (isSaturated w) (creepCount w)
    (resourceBoost w) (mineralsGathered w) v (activeEdges w) (rng w).

Definition set_activeEdges (w : world) (v : list Z) : world :=
  mkWorld (cols w) (rows w) (creepGrid w) (creepAge w) (terrainHeight w)
    (terrainType w) (minerals w) (vespene w) (buildings w) (startCorner w)
    (noiseTexture1 w) (totalVisibleCells w) (isSaturated w) (creepCount w)
    (resourceBoost w) (mineralsGathered w) (vespeneGathered w) v (rng w).

Definition set_rng (w : world) (v : nat) : world :=
  mkWorld (cols w) (rows w) (creepGrid w) (creepAge w) (terrainHeight w)
    (terrainType w) (minerals w) (vespene w) (buildings w) (startCorner w)
    (noiseTexture1 w) (totalVisibleCells w) (isSaturated w) (creepCount w)
    (resourceBoost w) (mineralsGathered w) (vespeneGathered w)
    (activeEdges w) v.

(** ** Sets of cell indices ([Set] keeps insertion order) *)

(** [s.add(k)]. *)
Definition set_add (k : Z) (s : list Z) : list Z :=
  if decide (k ∈ s) then s else s ++ [k].

(** [s.delete(k)]. *)
Definition set_delete (k : Z) (s : list Z) : list Z :=
  filter (λ j, j ≠ k) s.

(** ** Constants *)

Definition HATCHERY_MINERAL_COST : Z := 2.
Definition HATCHERY_VESPENE_COST : Z := 1.
Definition HATCHERY_SPAWN_CHANCE : Q := 0.55.

(** [terrainSpreadMods[t] || 0]: an index outside the table gives
    [undefined], hence 0. *)
Definition terrainSpreadMods (t : Z) : Q :=
  match t with
  | 0 => 1%Q
  | 1 => 0.9%Q
  | 2 => 0.75%Q
  | 3 => 0.2%Q
  | 4 => 0.15%Q
  | _ => 0%Q
  end.

(** [terrainType[idx] <= 2]: false for [undefined]. *)
Definition walkable (o : option Z) : bool :=
  match o with
  | Some t => t <=? 2
  | None => false
  end.

(** What [checkResource] returns: [res.type], and [res.boost]. *)
Inductive kind : Type := mineral | gas.

Definition boost (k : kind) : Q :=
  match k with
  | mineral => 2%Q
  | gas => 3%Q
  end.

(** ** Observations of one step

    [spreadCreep] has no output; to speak about what it does while it runs
    the model records, next to the state, the frontier cells it visits and
    the growth rolls it makes.  The trace is written and never read. *)

Inductive event : Type :=
| Visit (idx : Z)
| Roll (nidx dx dy : Z) (res : option kind) (liveBoost : Q)
       (spreadChance : option Q) (draw : Q).

(** The state of the scan loop of [spreadCreep]: the globals and the
    locals [newEdges] (a Set) and [toRemove] (an array). *)
Record scan : Type := mkScan {
  sw : world;
  newEdges : list Z;
  toRemove : list Z;
  trace : list event
}.

Section Simulation.

(** The stream of values [Math.random()] returns. *)
Variable rnd : nat -> Q.

Definition random (w : world) : Q * world :=
  (rnd (rng w), set_rng w (S (rng w))).

(** *** maybeSpawnHatcheryNear *)

(** Body of the candidate loop (radius 4 around the tile). *)
Definition candidateAt (w : world) (tileX tileY : Z)
    (candidates : list (Z * Z)) (d : Z * Z) : list (Z * Z) :=
  let x := tileX + d.1 in
  let y := tileY + d.2 in
  if negb (inGrid (cols w) (rows w) x y) then candidates
  else
    let idx := y * cols w + x in
    if walkable (aget (terrainType w) idx) && truthy (aget (creepGrid w) idx)
    then candidates ++ [(x, y)]
    else candidates.

(** Body of the 3x3 loop around the chosen cell. *)
Definition infestAt (chosen : Z * Z) (w : world) (d : Z * Z) : world :=
  let x := chosen.1 + d.1 in
  let y := chosen.2 + d.2 in
  if negb (inGrid (cols w) (rows w) x y) then w
  else
    let idx := y * cols w + x in
    if walkable (aget (terrainType w) idx) then
      if negb (truthy (aget (creepGrid w) idx)) then
        let w1 := set_creepGrid w (aset (creepGrid w) idx 1) in
        let w2 := set_creepAge w1 (aset (creepAge w1) idx 20%Q) in
        let w3 := set_activeEdges w2 (set_add idx (activeEdges w2)) in
        set_creepCount w3 (creepCount w3 + 1)
      else
        match aget (creepAge w) idx with
        | Some a => set_creepAge w (aset (creepAge w) idx (Qmax a 20))
        | None => w
        end
    else w.

(** The candidate loop: the cells collected around the tile. *)
Definition candidatesNear (w : world) (tileX tileY : Z) : list (Z * Z) :=
  foldl (candidateAt w tileX tileY) [] (offsets 4).

(** The 3x3 loop around the chosen cell. *)
Definition infest (chosen : Z * Z) (w : world) : world :=
  foldl (infestAt chosen) w (offsets 1).

(** [None]: [chosen] is [undefined] and reading [chosen.x] throws. *)
Definition maybeSpawnHatcheryNear (tileX tileY : Z) (w : world)
    : option world :=
  if (mineralsGathered w <? HATCHERY_MINERAL_COST)
     || (vespeneGathered w <? HATCHERY_VESPENE_COST) then Some w
  else
    let (coin, w1) := random w in
    if Qlt_bool HATCHERY_SPAWN_CHANCE coin then Some w1
    else
      let candidates := candidatesNear w1 tileX tileY in
      if (length candidates =? 0)%nat then Some w1
      else
        let (pick, w2) := random w1 in
        match aget candidates
                (Qfloor (pick * inject_Z (Z.of_nat (length candidates)))) with
        | None => None
        | Some chosen =>
            let w3 := set_buildings w2
                        (buildings w2
                           ++ [mkBuilding chosen.1 chosen.2 hatchery 0]) in
            let w4 := infest chosen w3 in
            let w5 := set_mineralsGathered w4
                        (mineralsGathered w4 - HATCHERY_MINERAL_COST) in
            Some (set_vespeneGathered w5
                    (vespeneGathered w5 - HATCHERY_VESPENE_COST))
        end.

(** *** checkResource *)

(** The test of the two loops: not depleted and closer than the radius. *)
Definition inReach (radiusSq x y : Z) (d : deposit) : bool :=
  negb (depleted d)
  && ((x - d_x d) * (x - d_x d) + (y - d_y d) * (y - d_y d) <? radiusSq).

(** [d.depleted = true]. *)
Definition deplete (d : deposit) : deposit :=
  mkDeposit (d_x d) (d_y d) (d_radius d) true.

(** [for (let d of ds)] up to its [return]: the first deposit in reach,
    and the list with that deposit marked depleted. *)
Fixpoint discover (radiusSq x y : Z) (ds : list deposit)
    : option (deposit * list deposit) :=
  match ds with
  | [] => None
  | d :: rest =>
      if inReach radiusSq x y d
      then Some (d, deplete d :: rest)
      else match discover radiusSq x y rest with
           | Some (m, rest') => Some (m, d :: rest')
           | None => None
           end
  end.

(** The statements between the distance test and the call of the
    spawner, for the mineral field [min] found in the list that is now
    [ms]. *)
Definition claimMineral (w : world) (ms : list deposit) (min : deposit)
    : world :=
  let w1 := set_minerals w ms in
  let w2 := set_resourceBoost w1 (Qmin 3 (resourceBoost w1 + 0.5)) in
  let w3 := set_mineralsGathered w2 (mineralsGathered w2 + 1) in
  set_buildings w3
    (buildings w3 ++ [mkBuilding (d_x min) (d_y min) mineralpatch 0]).

(** The same for the geyser [ves]. *)
Definition claimVespene (w : world) (vs : list deposit) (ves : deposit)
    : world :=
  let w1 := set_vespene w vs in
  let w2 := set_resourceBoost w1 (Qmin 3 (resourceBoost w1 + 1)) in
  let w3 := set_vespeneGathered w2 (vespeneGathered w2 + 1) in
  set_buildings w3
    (buildings w3 ++ [mkBuilding (d_x ves) (d_y ves) extractor 0]).

Definition checkResource (idx x y : Z) (w : world)
    : option (option kind * world) :=
  match discover 25 x y (minerals w) with
  | Some (min, ms) =>
      w' ← maybeSpawnHatcheryNear (d_x min) (d_y min)
             (claimMineral w ms min);
      Some (Some mineral, w')
  | None =>
      match discover 36 x y (vespene w) with
      | Some (ves, vs) =>
          w' ← maybeSpawnHatcheryNear (d_x ves) (d_y ves)
                 (claimVespene w vs ves);
          Some (Some gas, w')
      | None => Some (None, w)
      end
  end.

(** *** spreadCreep *)

Definition neighbors : list (Z * Z) :=
  [(-1, -1); (0, -1); (1, -1); (-1, 0); (1, 0); (-1, 1); (0, 1); (1, 1)].

(** [dirMod]. *)
Definition dirMod (c : corner) (dx dy : Z) : Q :=
  let awayX := dx =? dirX c in
  let awayY := dy =? dirY c in
  if awayX && awayY then 4%Q
  else if awayX || awayY then 2.5%Q
  else 1%Q.

(** [noiseMod]; [undefined > 0.75] is false. *)
Definition noiseMod (noiseVal : option Q) : Q :=
  match noiseVal with
  | Some v => if Qlt_bool 0.75 v then 1.5%Q else 1%Q
  | None => 1%Q
  end.

(** The body of [if (creepGrid[nidx] === 0)] for the neighbour
    [(nx, ny)] reached by the offset [(dx, dy)].  [None] as a chance is
    NaN (the height is [undefined]), and no draw is below NaN. *)
Definition growInto (currentBoost : Q) (dx dy nx ny nidx : Z) (s : scan)
    : option scan :=
  let w := sw s in
  let typeMod :=
    match aget (terrainType w) nidx with
    | Some t => terrainSpreadMods t
    | None => 0%Q
    end in
  let heightMod :=
    (λ height : Q, 1 - height * 0.5)%Q <$> aget (terrainHeight w) nidx in
  let dMod := dirMod (startCorner w) dx dy in
  '(res, w1) ← checkResource nidx nx ny w;
  let resMod := match res with Some k => boost k | None => 1%Q end in
  let nMod := noiseMod (aget (noiseTexture1 w1) nidx) in
  let spreadChance :=
    (λ hMod : Q,
       0.002 * currentBoost * hMod * typeMod * dMod * resMod * nMod)%Q
      <$> heightMod in
  let (draw, w2) := random w1 in
  let ev := Roll nidx dx dy res (resourceBoost w1) spreadChance draw in
  if match spreadChance with
     | Some c => Qlt_bool draw c
     | None => false
     end
  then
    let w3 := set_creepGrid w2 (aset (creepGrid w2) nidx 1) in
    let w4 := set_creepAge w3 (aset (creepAge w3) nidx 1%Q) in
    let w5 := set_creepCount w4 (creepCount w4 + 1) in
    Some (mkScan w5 (set_add nidx (newEdges s)) (toRemove s)
            (trace s ++ [ev]))
  else
    Some (mkScan w2 (newEdges s) (toRemove s) (trace s ++ [ev])).

(** One turn of [for (const {dx, dy} of neighbors)] for the edge cell at
    [(x, y)]; the boolean is [hasEmptyNeighbor].  When [nx] or [ny] is
    NaN the bounds test lets it through, [nidx] is NaN as well and
    [creepGrid[NaN]] is [undefined], which is not [=== 0]. *)
Definition checkNeighbor (currentBoost : Q) (x y : num)
    (acc : option (scan * bool)) (d : Z * Z) : option (scan * bool) :=
  '(s, hasEmptyNeighbor) ← acc;
  let w := sw s in
  let nx := num_add x d.1 in
  let ny := num_add y d.2 in
  if num_ltb nx 0 || num_geb nx (cols w) || num_ltb ny 0
     || num_geb ny (rows w)
  then Some (s, hasEmptyNeighbor)
  else
    match nx, ny with
    | Fin nxz, Fin nyz =>
        let nidx := nyz * cols w + nxz in
        match aget (creepGrid w) nidx with
        | Some 0 =>
            s' ← growInto currentBoost d.1 d.2 nxz nyz nidx s;
            Some (s', true)
        | _ => Some (s, hasEmptyNeighbor)
        end
    | _, _ => Some (s, hasEmptyNeighbor)
    end.

(** The body of [for (const idx of activeEdges)]. *)
Definition visitEdge (currentBoost : Q) (idx : Z) (s : scan)
    : option scan :=
  let x := js_rem idx (cols (sw s)) in
  let y := js_floor_div idx (cols (sw s)) in
  let s0 := mkScan (sw s) (newEdges s) (toRemove s)
              (trace s ++ [Visit idx]) in
  match foldl (checkNeighbor currentBoost x y) (Some (s0, false)) neighbors
  with
  | None => None
  | Some (s1, hasEmptyNeighbor) =>
      let w := sw s1 in
      let w' :=
        match aget (creepAge w) idx with
        | Some a =>
            set_creepAge w (aset (creepAge w) idx (Qmin 100 (a + 0.2)))
        | None => w
        end in
      Some (mkScan w' (newEdges s1)
              (if hasEmptyNeighbor : bool
               then toRemove s1 else toRemove s1 ++ [idx])
              (trace s1))
  end.

(** [for (const idx of activeEdges)]: the iterator of a Set walks its
    entries in insertion order and also reaches the entries added while
    it runs, so the loop reads position [pos] of the live set.  [fuel]
    bounds the number of turns; [None] is a throw of the body, or the
    fuel run out. *)
Fixpoint scanEdges (fuel : nat) (currentBoost : Q) (pos : nat) (s : scan)
    : option scan :=
  match activeEdges (sw s) !! pos with
  | None => Some s
  | Some idx =>
      match fuel with
      | O => None
      | S fuel' =>
          s' ← visitEdge currentBoost idx s;
          scanEdges fuel' currentBoost (S pos) s'
      end
  end.

(** Every turn visits another entry of the set, and the entries added
    while the loop runs are cells of the grid that were not in the set:
    the set never holds more than its entries at the start plus one per
    cell. *)
Definition scanFuel (w : world) : nat :=
  (length (activeEdges w) + Z.to_nat (cols w * rows w))%nat.

(** The two loops after the scan: [activeEdges.delete] for the cells of
    [toRemove], then [activeEdges.add] for those of [newEdges]. *)
Definition settleEdges (edges toRemove newEdges : list Z) : list Z :=
  foldl (λ e idx, set_add idx e)
    (foldl (λ e idx, set_delete idx e) edges toRemove) newEdges.

(** [if (creepCount >= totalVisibleCells * 0.98) isSaturated = true]. *)
Definition checkSaturation (w : world) : world :=
  if Qle_bool (inject_Z (totalVisibleCells w) * 0.98)
       (inject_Z (creepCount w))
  then set_isSaturated w true
  else w.

(** What follows the scan loop. *)
Definition finishStep (s : scan) : world :=
  checkSaturation
    (set_activeEdges (sw s)
       (settleEdges (activeEdges (sw s)) (toRemove s) (newEdges s))).

(** The step with its trace. *)
Definition spreadCreepTrace (w : world) : option scan :=
  if isSaturated w then Some (mkScan w [] [] [])
  else
    let currentBoost := resourceBoost w in
    s ← scanEdges (scanFuel w) currentBoost 0 (mkScan w [] [] []);
    Some (mkScan (finishStep s) (newEdges s) (toRemove s) (trace s)).

Definition spreadCreep (w : world) : option world :=
  sw <$> spreadCreepTrace w.

(** [n] calls of the step, as the animation loop makes them. *)
Fixpoint steps (n : nat) (w : world) : option world :=
  match n with
  | O => Some w
  | S k => w' ← spreadCreep w; steps k w'
  end.

End Simulation.

(** ** World generation *)

Definition cellSize : Z := 8.

(** A comparison of an array element with a constant; it is false when
    the element is [undefined]. *)
Definition below (o : option Q) (bound : Q) : bool :=
  match o with
  | Some v => Qlt_bool v bound
  | None => false
  end.

Definition atMost (o : option Q) (bound : Q) : bool :=
  match o with
  | Some v => Qle_bool v bound
  | None => false
  end.

(** The chain of [if]s that assigns a terrain type from the height and the
    expanded water mask.  0: low ground, 1: mid ground, 2: high plateau,
    3: cliff wall, 4: water. *)
Definition assignType (h : option Q) (water : bool) : Z :=
  if water then 4
  else if below h 0.32 then 0
  else if below h 0.6 then 1
  else 2.

(** [for (let i = 0; i < size; i++)] of "Assign terrain types". *)
Definition assignTypes (size : Z) (terrainHeight : list Q)
    (expandedWater : list Z) (terrainType : list Z) : list Z :=
  foldl (λ tt i,
           aset tt i
             (assignType (aget terrainHeight i)
                (truthy (aget expandedWater i))))
    terrainType (upto size).

(** [maxDiff = Math.max(maxDiff, Math.abs(h - terrainHeight[j]))]; [None]
    is NaN, which [Math.max] propagates. *)
Definition maxDiffWith (terrainHeight : list Q) (h : option Q) (j : Z)
    (maxDiff : option Q) : option Q :=
  match maxDiff, h, aget terrainHeight j with
  | Some m, Some a, Some b => Some (Qmax m (Qabs (a - b)))
  | _, _, _ => None
  end.

(** The body of the loops of "Detect cliff edges" at the cell (x, y). *)
Definition cliffAt (cols rows : Z) (terrainHeight : list Q)
    (terrainType : list Z) (c : Z * Z) : list Z :=
  let x := c.1 in
  let y := c.2 in
  let idx := y * cols + x in
  match aget terrainType idx with
  | Some 4 => terrainType
  | _ =>
      let h := aget terrainHeight idx in
      let m0 := Some 0%Q in
      let m1 := if 0 <? x
                then maxDiffWith terrainHeight h (idx - 1) m0 else m0 in
      let m2 := if x <? cols - 1
                then maxDiffWith terrainHeight h (idx + 1) m1 else m1 in
      let m3 := if 0 <? y
                then maxDiffWith terrainHeight h (idx - cols) m2 else m2 in
      let m4 := if y <? rows - 1
                then maxDiffWith terrainHeight h (idx + cols) m3 else m3 in
      if match m4 with
         | Some maxDiff => Qlt_bool 0.08 maxDiff
         | None => false
         end
      then aset terrainType idx 3
      else terrainType
  end.

(** The test of [cliffAt] on the heights around the cell [c], apart from
    the array it updates. *)
Definition cliffy (cols rows : Z) (terrainHeight : list Q) (c : Z * Z)
    : bool :=
  let x := c.1 in
  let y := c.2 in
  let idx := y * cols + x in
  let h := aget terrainHeight idx in
  let m0 := Some 0%Q in
  let m1 := if 0 <? x
            then maxDiffWith terrainHeight h (idx - 1) m0 else m0 in
  let m2 := if x <? cols - 1
            then maxDiffWith terrainHeight h (idx + 1) m1 else m1 in
  let m3 := if 0 <? y
            then maxDiffWith terrainHeight h (idx - cols) m2 else m2 in
  let m4 := if y <? rows - 1
            then maxDiffWith terrainHeight h (idx + cols) m3 else m3 in
  match m4 with
  | Some maxDiff => Qlt_bool 0.08 maxDiff
  | None => false
  end.

(** [terrainType[idx] === 4]. *)
Definition isWater (o : option Z) : bool :=
  match o with
  | Some 4 => true
  | _ => false
  end.

Definition detectCliffs (cols rows : Z) (terrainHeight : list Q)
    (terrainType : list Z) : list Z :=
  foldl (cliffAt cols rows terrainHeight) terrainType (cells cols rows).

(** Lines 203 to 235 of [initGrid]: the terrain types from the smoothed
    heights and the expanded water mask. *)
Definition classifyTerrain (cols rows : Z) (terrainHeight : list Q)
    (expandedWater : list Z) : list Z :=
  let size := cols * rows in
  detectCliffs cols rows terrainHeight
    (assignTypes size terrainHeight expandedWater
       (replicate (Z.to_nat size) 0)).

Section Generation.

(** [Math.sin] and [Math.sqrt] have no rational model; the generator is
    stated over any two functions in their place. *)
Variable sin : Q -> Q.
Variable sqrt : Q -> Q.
Variable rnd : nat -> Q.

Definition seededRandom (seed : Q) : Q :=
  let x := (sin seed * 43758.5453)%Q in
  (x - inject_Z (Qfloor x))%Q.

(** The element [i] of [generateNoiseTexture(scale, seed, cols, rows)]. *)
Definition noiseAt (scale seed : Q) (cols : Z) (i : Z) : Q :=
  let x := Z.rem i cols in
  let y := i / cols in
  seededRandom (inject_Z x * scale * 12.9898
                + inject_Z y * scale * 78.233 + seed)%Q.

Definition generateNoiseTexture (scale seed : Q) (cols rows : Z) : list Q :=
  noiseAt scale seed cols <$> upto (cols * rows).

(** "Base height from octave mix": the three octaves are read at [i]
    inside their [cols * rows] elements. *)
Definition baseHeight (cols rows : Z) : list Q :=
  (λ i, noiseAt 0.0035 300 cols i * 0.7 + noiseAt 0.008 400 cols i * 0.2
        + noiseAt 0.018 500 cols i * 0.1)%Q <$> upto (cols * rows).

(** "Smoothing pass" at the cell (x, y): mean over the in-grid cells of
    the 3x3 block. *)
Definition smoothAt (cols rows : Z) (h : list Q) (c : Z * Z) : Q :=
  let acc :=
    foldl (λ (a : Q * Z) (o : Z * Z),
             let nx := c.1 + o.1 in
             let ny := c.2 + o.2 in
             if inGrid cols rows nx ny
             then ((a.1 + default 0%Q (aget h (ny * cols + nx)))%Q, a.2 + 1)
             else a)
      (0%Q, 0) (offsets 1) in
  (acc.1 / inject_Z acc.2)%Q.

Definition smooth (cols rows : Z) (h : list Q) : list Q :=
  foldl (λ sm c, aset sm (c.2 * cols + c.1) (smoothAt cols rows h c))
    (replicate (Z.to_nat (cols * rows)) 0%Q) (cells cols rows).

(** Rejection sampling of a water centre: [attempts] turns are left. *)
Fixpoint findCenter (attempts : nat) (cols rows : Z) (h : list Q)
    (n : nat) : option (Z * Z) * nat :=
  match attempts with
  | O => (None, n)
  | S k =>
      let cx := Qfloor (rnd n * inject_Z cols) in
      let cy := Qfloor (rnd (S n) * inject_Z rows) in
      if atMost (aget h (cy * cols + cx)) 0.45
      then (Some (cx, cy), S (S n))
      else findCenter k cols rows h (S (S n))
  end.

(** Body of the two flood loops around the centre. *)
Definition floodAt (cols rows : Z) (h : list Q) (cx cy : Z) (radius : Q)
    (waterMask : list Z) (d : Z * Z) : list Z :=
  let nx := cx + d.1 in
  let ny := cy + d.2 in
  if negb (inGrid cols rows nx ny) then waterMask
  else
    let dist := sqrt (inject_Z (d.1 * d.1 + d.2 * d.2)) in
    if Qlt_bool radius dist then waterMask
    else
      let boundaryNoise :=
        ((seededRandom (inject_Z (nx + ny) * 0.1) - 0.5) * 2)%Q in
      let effectiveDist := (dist + boundaryNoise * 2)%Q in
      if Qlt_bool effectiveDist radius
         && below (aget h (ny * cols + nx)) 0.50
      then aset waterMask (ny * cols + nx) 1
      else waterMask.

(** One turn of [for (let b = 0; b < numBodies; b++)]. *)
Definition waterBody (cols rows : Z) (h : list Q) (acc : list Z * nat)
    : list Z * nat :=
  let (waterMask, n) := acc in
  match findCenter 100 cols rows h n with
  | (None, n1) => (waterMask, n1)
  | (Some (cx, cy), n1) =>
      let radius := (8 + rnd n1 * 15)%Q in
      (foldl (floodAt cols rows h cx cy radius) waterMask
         (offsets (Qceiling radius)), S n1)
  end.

(** "Expand water pools" at the cell (x, y). *)
Definition expandAt (cols rows : Z) (h : list Q) (waterMask : list Z)
    (expandedWater : list Z) (c : Z * Z) : list Z :=
  let idx := c.2 * cols + c.1 in
  if truthy (aget waterMask idx) then
    foldl (λ ew (o : Z * Z),
             let nx := c.1 + o.1 in
             let ny := c.2 + o.2 in
             if negb (inGrid cols rows nx ny) then ew
             else if below (aget h (ny * cols + nx)) 0.48
                  then aset ew (ny * cols + nx) 1
                  else ew)
      (aset expandedWater idx 1) (offsets 1)
  else expandedWater.

(** The first cell of the search ranges with a walkable terrain type. *)
Definition findSeed (cols : Z) (terrainType : list Z)
    (rangeX rangeY : Z * Z) : option (Z * Z) :=
  head (filter (λ c : Z * Z, walkable (aget terrainType (c.2 * cols + c.1)))
          (sy ← zseq rangeY.1 (Z.to_nat (rangeY.2 - rangeY.1));
           sx ← zseq rangeX.1 (Z.to_nat (rangeX.2 - rangeX.1));
           [(sx, sy)])).

(** The [do ... while] of resource placement.  [left] is 99 minus the
    value of [attempts] before the turn; the boolean is [attempts < 100]
    after the loop. *)
Fixpoint sampleCell (left : nat) (cols rows : Z) (terrainType : list Z)
    (creepGrid : list Z) (n : nat) : Z * Z * bool * nat :=
  let cx := Qfloor (rnd n * inject_Z cols) in
  let cy := Qfloor (rnd (S n) * inject_Z rows) in
  match left with
  | O => (cx, cy, false, S (S n))
  | S k =>
      if match aget terrainType (cy * cols + cx) with
         | Some t => 2 <? t
         | None => false
         end
         || truthy (aget creepGrid (cy * cols + cx))
      then sampleCell k cols rows terrainType creepGrid (S (S n))
      else (cx, cy, true, S (S n))
  end.

(** One turn of a resource loop: radius [base + Math.random() * span]. *)
Definition placeDeposit (base span : Q) (cols rows : Z)
    (terrainType : list Z) (creepGrid : list Z) (acc : list deposit * nat)
    : list deposit * nat :=
  let (ds, n) := acc in
  match sampleCell 99 cols rows terrainType creepGrid n with
  | (cx, cy, true, n1) =>
      (ds ++ [mkDeposit cx cy (base + rnd n1 * span)%Q false], S n1)
  | (_, _, false, n1) => (ds, n1)
  end.

(** The first half of [initGrid], up to "Expand water pools": the
    smoothed heights, the expanded water mask, and the number of random
    draws made. *)
Definition generateTerrain (cols rows : Z) : list Q * list Z * nat :=
  let size := cols * rows in
  let terrainHeight := smooth cols rows (baseHeight cols rows) in
  (* Generate 0-5 water bodies *)
  let numBodies := Qfloor (rnd 0 * 6) in
  let (waterMask, n1) :=
    Nat.iter (Z.to_nat numBodies) (waterBody cols rows terrainHeight)
      (replicate (Z.to_nat size) 0, 1%nat) in
  let expandedWater :=
    foldl (expandAt cols rows terrainHeight waterMask)
      (replicate (Z.to_nat size) 0) (cells cols rows) in
  (terrainHeight, expandedWater, n1).

(** [Math.ceil(pixels / cellSize)] for a whole number of pixels. *)
Definition cellsAcross (pixels : N) : Z :=
  (Z.of_N pixels + cellSize - 1) / cellSize.

(** "Random start corner": the [switch] on [corner]; a value outside
    0..3 matches no case and leaves the value the variable is declared
    with. *)
Definition pickCorner (cols rows choice : Z) : corner :=
  match choice with
  | 0 => mkCorner 0 0 1 1
  | 1 => mkCorner (cols - 1) 0 (-1) 1
  | 2 => mkCorner 0 (rows - 1) 1 (-1)
  | 3 => mkCorner (cols - 1) (rows - 1) (-1) (-1)
  | _ => mkCorner 0 0 1 1
  end.

(** "Find valid starting position": the corner itself unless the search
    finds a walkable cell. *)
Definition seedCell (cols rows : Z) (terrainType : list Z)
    (startCorner : corner) : Z * Z :=
  let margin := Qfloor (inject_Z cols * 0.1) in
  let searchRangeX :=
    if dirX startCorner =? 1 then (0, margin) else (cols - margin, cols) in
  let searchRangeY :=
    if dirY startCorner =? 1 then (0, margin) else (rows - margin, rows) in
  default (c_x startCorner, c_y startCorner)
    (findSeed cols terrainType searchRangeX searchRangeY).

(** The two resource loops: [count] turns of [placeDeposit]. *)
Definition spawnDeposits (count : Z) (base span : Q) (cols rows : Z)
    (terrainType : list Z) (creepGrid : list Z) (n : nat)
    : list deposit * nat :=
  Nat.iter (Z.to_nat count)
    (placeDeposit base span cols rows terrainType creepGrid) ([], n).

(** [initGrid] for a window of [width] by [height] pixels. *)
Definition initGrid (width height : N) : world :=
  let cols := cellsAcross width in
  let rows := cellsAcross height in
  let size := cols * rows in
  let '(terrainHeight, expandedWater, n1) := generateTerrain cols rows in
  let terrainType := classifyTerrain cols rows terrainHeight expandedWater in
  let noiseTexture1 := generateNoiseTexture 0.3 0 cols rows in
  let startCorner := pickCorner cols rows (Qfloor (rnd n1 * 4)) in
  let seed := seedCell cols rows terrainType startCorner in
  let seedIdx := seed.2 * cols + seed.1 in
  let creepGrid := aset (replicate (Z.to_nat size) 0) seedIdx 1 in
  let creepAge := aset (replicate (Z.to_nat size) 0%Q) seedIdx 50%Q in
  let numMinerals := Z.max 15 (Qfloor (inject_Z (cols * rows) * 0.0006)) in
  let numVespene := Z.max 8 (Qfloor (inject_Z (cols * rows) * 0.0003)) in
  let (minerals, n2) :=
    spawnDeposits numMinerals 2 3 cols rows terrainType creepGrid (S n1) in
  let (vespene, n3) :=
    spawnDeposits numVespene 3 2 cols rows terrainType creepGrid n2 in
  {| cols := cols;
     rows := rows;
     creepGrid := creepGrid;
     creepAge := creepAge;
     terrainHeight := terrainHeight;
     terrainType := terrainType;
     minerals := minerals;
     vespene := vespene;
     buildings := [mkBuilding seed.1 seed.2 hatchery 0];
     startCorner := startCorner;
     noiseTexture1 := noiseTexture1;
     totalVisibleCells := size;
     isSaturated := false;
     creepCount := 0 + 1;
     resourceBoost := 1;
     mineralsGathered := 0;
     vespeneGathered := 0;
     activeEdges := set_add seedIdx [];
     rng := n3 |}.

End Generation.

(** ** Vocabulary of the specification *)

Inductive TerrainType : Type :=
| LowGround
| MidGround
| HighPlateau
| CliffWall
| Water.

(** The number [terrainType] stores for a type. *)
Definition typeCode (t : TerrainType) : Z :=
  match t with
  | LowGround => 0
  | MidGround => 1
  | HighPlateau => 2
  | CliffWall => 3
  | Water => 4
  end.

(** The fixed table of spread modifiers, as the specification gives it. *)
Definition terrainTypeMod (t : TerrainType) : Q :=
  match t with
  | LowGround => 1.0%Q
  | MidGround => 0.9%Q
  | HighPlateau => 0.75%Q
  | CliffWall => 0.2%Q
  | Water => 0.15%Q
  end.

(** The in-grid cells among the four direct neighbours of (x, y). *)
Definition fourNeighbours (cols rows x y : Z) : list (Z * Z) :=
  filter (λ c : Z * Z, inGrid cols rows c.1 c.2)
    [(x, y - 1); (x, y + 1); (x - 1, y); (x + 1, y)].

(** The largest absolute height difference to those neighbours. *)
Definition maxHeightDiff (height : Z -> Z -> Q) (cols rows x y : Z) : Q :=
  foldr (λ (c : Z * Z) m, Qmax (Qabs (height x y - height c.1 c.2)) m) 0%Q
    (fourNeighbours cols rows x y).

(** The terrain type of a cell as the specification words it: water first,
    then cliffs, then the height bands. *)
Definition specTerrain (height : Z -> Z -> Q) (water : Z -> Z -> bool)
    (cols rows x y : Z) : TerrainType :=
  if water x y then Water
  else if Qlt_bool 0.08 (maxHeightDiff height cols rows x y) then CliffWall
  else if Qlt_bool (height x y) 0.32 then LowGround
  else if Qlt_bool (height x y) 0.6 then MidGround
  else HighPlateau.

(** An array of [cols * rows] elements read as a function of (x, y). *)
Definition heightOf (cols : Z) (terrainHeight : list Q) (x y : Z) : Q :=
  default 0%Q (aget terrainHeight (y * cols + x)).

Definition waterOf (cols : Z) (expandedWater : list Z) (x y : Z) : bool :=
  truthy (aget expandedWater (y * cols + x)).

(** The direction modifier, as the specification words it. *)
Definition directionMod (c : corner) (dx dy : Z) : Q :=
  match bool_decide (dx = dirX c), bool_decide (dy = dirY c) with
  | true, true => 4.0%Q
  | true, false | false, true => 2.5%Q
  | false, false => 1.0%Q
  end.

Definition resourceDiscoveryMod (res : option kind) : Q :=
  match res with
  | Some gas => 3.0%Q
  | Some mineral => 2.0%Q
  | None => 1.0%Q
  end.

(** Occupancy of the cell with index [idx]. *)
Definition occupied (w : world) (idx : Z) : Prop :=
  truthy (aget (creepGrid w) idx) = true.

Definition unoccupied (w : world) (idx : Z) : Prop :=
  aget (creepGrid w) idx = Some 0.

Definition cellIndex (w : world) (x y : Z) : Z := y * cols w + x.

Definition inWorld (w : world) (x y : Z) : Prop :=
  0 <= x < cols w /\ 0 <= y < rows w.

(** (nx, ny) is one of the eight neighbours of (x, y). *)
Definition adjacent (x y nx ny : Z) : Prop :=
  (nx - x, ny - y) ∈ neighbors.

(** The cell (x, y) has an unoccupied in-bounds 8-neighbour. *)
Definition hasEmptyNeighbour (w : world) (x y : Z) : Prop :=
  exists nx ny, adjacent x y nx ny /\ inWorld w nx ny
                /\ unoccupied w (cellIndex w nx ny).

(** First direction of the frontier invariant: every member is an occupied
    cell with an unoccupied in-bounds 8-neighbour. *)
Definition frontierSound (w : world) : Prop :=
  forall idx, idx ∈ activeEdges w ->
    exists x y, inWorld w x y /\ idx = cellIndex w x y
                /\ occupied w idx /\ hasEmptyNeighbour w x y.

(** Its weakening: every member is an occupied cell of the grid. *)
Definition frontierOccupied (w : world) : Prop :=
  forall idx, idx ∈ activeEdges w ->
    exists x y, inWorld w x y /\ idx = cellIndex w x y /\ occupied w idx.

(** Second direction: every occupied cell with an unoccupied in-bounds
    8-neighbour is a member. *)
Definition frontierComplete (w : world) : Prop :=
  forall x y, inWorld w x y -> occupied w (cellIndex w x y) ->
    hasEmptyNeighbour w x y -> cellIndex w x y ∈ activeEdges w.

(** The number of cells of the grid whose occupancy value is 1. *)
Definition occupiedCells (w : world) : Z :=
  Z.of_nat (length (filter (λ v, v = 1) (creepGrid w))).

(** [creepCount >= totalVisibleCells * 0.98], with the count given. *)
Definition reaches98 (count : Z) (w : world) : Prop :=
  (inject_Z (totalVisibleCells w) * 0.98 <= inject_Z count)%Q.

(** A deposit list later in the cycle: the same deposits in the same
    order, and what was depleted still is. *)
Definition depositsKept (ds ds' : list deposit) : Prop :=
  Forall2 (λ d d', d_x d' = d_x d /\ d_y d' = d_y d
                   /\ d_radius d' = d_radius d
                   /\ (depleted d = true -> depleted d' = true)) ds ds'.

(** What every operation on the world respects, between a world and a
    later one of the same cycle. *)
Record evolves (w w' : world) : Prop := mkEvolves {
  ev_cols : cols w' = cols w;
  ev_rows : rows w' = rows w;
  ev_height : terrainHeight w' = terrainHeight w;
  ev_type : terrainType w' = terrainType w;
  ev_corner : startCorner w' = startCorner w;
  ev_noise : noiseTexture1 w' = noiseTexture1 w;
  ev_total : totalVisibleCells w' = totalVisibleCells w;
  ev_sat : isSaturated w' = isSaturated w;
  ev_gridlen : length (creepGrid w') = length (creepGrid w);
  ev_agelen : length (creepAge w') = length (creepAge w);
  ev_grid : forall i, occupied w i -> occupied w' i;
  ev_edges : exists added,
      activeEdges w' = activeEdges w ++ added /\ NoDup added
      /\ forall k, k ∈ added ->
           (k ∉ activeEdges w) /\ 0 <= k < cols w * rows w;
  ev_members : Z.of_nat (length (creepGrid w)) = cols w * rows w ->
               forall k, k ∈ activeEdges w' ->
                 k ∈ activeEdges w \/ occupied w' k;
  ev_count : occupiedCells w' - occupiedCells w
             <= creepCount w' - creepCount w;
  ev_boost : (resourceBoost w <= 3 ->
              resourceBoost w <= resourceBoost w' /\ resourceBoost w' <= 3)%Q;
  ev_minerals : depositsKept (minerals w) (minerals w');
  ev_vespene : depositsKept (vespene w) (vespene w');
  ev_gatheredM : 0 <= mineralsGathered w -> 0 <= mineralsGathered w';
  ev_gatheredV : 0 <= vespeneGathered w -> 0 <= vespeneGathered w'
}.

(** The cells occupied between [w] and [w'] are in the set [s]. *)
Definition freshIn (w w' : world) (s : list Z) : Prop :=
  forall i, occupied w' i -> ~ occupied w i -> i ∈ s.

(** Both together: the world evolves and the cells it occupies on the way
    enter the frontier set. *)
Definition grows (w w' : world) : Prop :=
  evolves w w' /\ freshIn w w' (activeEdges w').

(** No in-bounds 8-neighbour of the cell with index [k] is unoccupied. *)
Definition enclosed (w : world) (k : Z) : Prop :=
  forall x y nx ny, inWorld w x y -> k = cellIndex w x y ->
    adjacent x y nx ny -> inWorld w nx ny ->
    ~ unoccupied w (cellIndex w nx ny).

(** The ways a call of the spawner ends. *)
Inductive spawnOutcome (rnd : nat -> Q) (tileX tileY : Z) (w w' : world)
    : Prop :=
| GateClosed :
    mineralsGathered w < HATCHERY_MINERAL_COST
    \/ vespeneGathered w < HATCHERY_VESPENE_COST ->
    w' = w -> spawnOutcome rnd tileX tileY w w'
| CoinLost :
    (HATCHERY_SPAWN_CHANCE < rnd (rng w))%Q ->
    w' = set_rng w (S (rng w)) -> spawnOutcome rnd tileX tileY w w'
| NoCandidate :
    (forall c, ~ (- 4 <= c.1 - tileX <= 4 /\ - 4 <= c.2 - tileY <= 4
                  /\ inWorld w c.1 c.2
                  /\ walkable (aget (terrainType w)
                                 (cellIndex w c.1 c.2)) = true
                  /\ occupied w (cellIndex w c.1 c.2))) ->
    w' = set_rng w (S (rng w)) -> spawnOutcome rnd tileX tileY w w'
| Spawned (chosen : Z * Z) :
    HATCHERY_MINERAL_COST <= mineralsGathered w ->
    HATCHERY_VESPENE_COST <= vespeneGathered w ->
    (rnd (rng w) <= HATCHERY_SPAWN_CHANCE)%Q ->
    - 4 <= chosen.1 - tileX <= 4 -> - 4 <= chosen.2 - tileY <= 4 ->
    inWorld w chosen.1 chosen.2 ->
    walkable (aget (terrainType w) (cellIndex w chosen.1 chosen.2)) = true ->
    occupied w (cellIndex w chosen.1 chosen.2) ->
    buildings w'
    = buildings w ++ [mkBuilding chosen.1 chosen.2 hatchery 0] ->
    mineralsGathered w' = mineralsGathered w - HATCHERY_MINERAL_COST ->
    vespeneGathered w' = vespeneGathered w - HATCHERY_VESPENE_COST ->
    spawnOutcome rnd tileX tileY w w'.

(** What [growInto] records of a roll, for the boost [b] of the step. *)
Definition rollRaw (b : Q) (w : world) (e : event) : Prop :=
  match e with
  | Visit _ => True
  | Roll nidx dx dy res _ spreadChance _ =>
      0 <= nidx < cols w * rows w
      /\ spreadChance
      = (λ h : Q,
           0.002 * b * (1 - h * 0.5)
           * match aget (terrainType w) nidx with
             | Some t => terrainSpreadMods t
             | None => 0
             end
           * dirMod (startCorner w) dx dy
           * match res with Some k => boost k | None => 1 end
           * noiseMod (aget (noiseTexture1 w) nidx))%Q
          <$> aget (terrainHeight w) nidx
  end.

(** What the scan loop respects between two of its states, for the boost
    [b] of the step. *)
Record sgrows (b : Q) (s s' : scan) : Prop := mkSgrows {
  sg_evolves : evolves (sw s) (sw s');
  sg_fresh : freshIn (sw s) (sw s') (activeEdges (sw s') ++ newEdges s');
  sg_new_incl : forall k, k ∈ newEdges s -> k ∈ newEdges s';
  sg_new : forall k, k ∈ newEdges s' ->
             k ∈ newEdges s
             \/ (occupied (sw s') k /\ 0 <= k < cols (sw s) * rows (sw s));
  sg_removed_incl : forall k, k ∈ toRemove s -> k ∈ toRemove s';
  sg_removed : forall k, k ∈ toRemove s' ->
                 k ∈ toRemove s \/ enclosed (sw s') k;
  sg_trace : exists evs, trace s' = trace s ++ evs
                         /\ Forall (rollRaw b (sw s)) evs
}.

(** What the specification says of a growth roll: the threshold compared
    with the draw, for the boost [rb]. *)
Definition specChance (rb : Q) (w : world) (nidx dx dy : Z)
    (res : option kind) (t : TerrainType) (h noiseVal : Q) : Q :=
  (0.002 * rb * (1 - h * 0.5) * terrainTypeMod t
   * directionMod (startCorner w) dx dy * resourceDiscoveryMod res
   * (if Qlt_bool 0.75 noiseVal then 1.5 else 1.0))%Q.

(** A roll event agrees with the specification's formula for boost [rb]. *)
Definition rollAgrees (rb : Q) (w : world) (e : event) : Prop :=
  match e with
  | Visit _ => True
  | Roll nidx dx dy res _ spreadChance _ =>
      exists t h noiseVal c,
        aget (terrainType w) nidx = Some (typeCode t)
        /\ aget (terrainHeight w) nidx = Some h
        /\ aget (noiseTexture1 w) nidx = Some noiseVal
        /\ spreadChance = Some c
        /\ (c == specChance rb w nidx dx dy res t h noiseVal)%Q
  end.

(** The same with the value of [resourceBoost] at the time of the roll. *)
Definition rollAgreesLive (w : world) (e : event) : Prop :=
  match e with
  | Visit _ => True
  | Roll _ _ _ _ liveBoost _ _ => rollAgrees liveBoost w e
  end.

(** The arrays of a world have one element per cell, and the terrain
    types are the five of the table. *)
Record wellFormed (w : world) : Prop := mkWellFormed {
  wf_cols : 0 < cols w;
  wf_rows : 0 < rows w;
  wf_total : totalVisibleCells w = cols w * rows w;
  wf_grid : Z.of_nat (length (creepGrid w)) = cols w * rows w;
  wf_age : Z.of_nat (length (creepAge w)) = cols w * rows w;
  wf_height : Z.of_nat (length (terrainHeight w)) = cols w * rows w;
  wf_type : Z.of_nat (length (terrainType w)) = cols w * rows w;
  wf_noise : Z.of_nat (length (noiseTexture1 w)) = cols w * rows w;
  wf_types : forall t, t ∈ terrainType w -> exists T, t = typeCode T
}.

(** The invariant of the worlds of a cycle. *)
Record cycleInv (w : world) : Prop := mkCycleInv {
  ci_wf : wellFormed w;
  ci_members : frontierOccupied w;
  ci_complete : frontierComplete w;
  ci_count : occupiedCells w <= creepCount w;
  ci_boost : (1 <= resourceBoost w /\ resourceBoost w <= 3)%Q;
  ci_gatheredM : 0 <= mineralsGathered w;
  ci_gatheredV : 0 <= vespeneGathered w
}.

(** A deposit's centre is closer to (x, y) than the square root of
    [radiusSq]. *)
Definition closeTo (radiusSq x y : Z) (d : deposit) : Prop :=
  (x - d_x d) * (x - d_x d) + (y - d_y d) * (y - d_y d) < radiusSq.

(** A deposit the discovery check passes over: depleted or too far. *)
Definition passedOver (radiusSq x y : Z) (d : deposit) : Prop :=
  depleted d = true \/ ~ closeTo radiusSq x y d.

(** What a step keeps of the resources of a cycle. *)
Record sustains (w w' : world) : Prop := mkSustains {
  su_boost : (resourceBoost w <= 3 ->
              resourceBoost w <= resourceBoost w' /\ resourceBoost w' <= 3)%Q;
  su_gatheredM : 0 <= mineralsGathered w -> 0 <= mineralsGathered w';
  su_gatheredV : 0 <= vespeneGathered w -> 0 <= vespeneGathered w';
  su_minerals : depositsKept (minerals w) (minerals w');
  su_vespene : depositsKept (vespene w) (vespene w')
}.

(** ** Sample windows and random streams *)

Definition flat : Q -> Q := fun _ => 0%Q.

Definition zeros : nat -> Q := fun _ => 0%Q.

Definition between (a b i : nat) : bool := (a <=? i)%nat && (i <=? b)%nat.

(** Draws that place two mineral fields and one geyser on the far cell of
    a 2 x 2 world, pass the hatchery coin flip of the first step and win
    the growth roll that follows it. *)
Definition lucky : nat -> Q := fun i =>
  if between 2 7 i || between 2608 2610 i || between 4011 4014 i
  then 0.5%Q else 0%Q.

(** The world generated for a window of 16 x 8 pixels: two cells side by
    side. *)
Definition twoCells : world :=
  Eval vm_compute in initGrid flat flat zeros 16 8.

(** The world generated for a window of 16 x 16 pixels: 2 x 2 cells. *)
Definition fourCells : world :=
  Eval vm_compute in initGrid flat flat lucky 16 16.

(** The world generated for a window without pixels. *)
Definition noCells : world :=
  Eval vm_compute in initGrid flat flat zeros 0 0.

(** The two-cell world after its first step. *)
Definition twoCellsNext : world :=
  Eval vm_compute in default twoCells (spreadCreep zeros twoCells).

(** The 2 x 2 world after the discovery check at its cell (1, 0). *)
Definition fourCellsClaimed : world :=
  Eval vm_compute in
    match checkResource lucky 1 1 0 fourCells with
    | Some (_, w) => w
    | None => fourCells
    end.

(** The 2 x 2 world after its first step. *)
Definition fourCellsNext : world :=
  Eval vm_compute in default fourCells (spreadCreep lucky fourCells).

(** The first step of the 2 x 2 world, with its trace. *)
Definition fourCellsScan : scan :=
  Eval vm_compute in
    default (mkScan fourCells [] [] []) (spreadCreepTrace lucky fourCells).

(** * Proofs *)

(** ** Typed arrays *)

Lemma aget_Some_range {A : Type} (a : list A) (i : Z) (v : A) :
  aget a i = Some v -> 0 <= i < Z.of_nat (length a).
Proof.
  unfold aget. destruct (Z.ltb_spec i 0) as [Hi | Hi]; [discriminate |].
  intros Hl. apply lookup_lt_Some in Hl. lia.
Qed.

Lemma aget_in_range {A : Type} (a : list A) (i : Z) :
  0 <= i < Z.of_nat (length a) -> exists v, aget a i = Some v.
Proof.
  intros Hi. unfold aget. destruct (Z.ltb_spec i 0) as [Hn | Hn]; [lia |].
  destruct (lookup_lt_is_Some_2 a (Z.to_nat i)) as [v Hv]; [lia |].
  eauto.
Qed.

Lemma aget_None_range {A : Type} (a : list A) (i : Z) :
  aget a i = None -> i < 0 \/ Z.of_nat (length a) <= i.
Proof.
  intros Hn. destruct (Z_lt_le_dec i 0) as [Hi | Hi]; [auto |].
  destruct (Z_lt_le_dec i (Z.of_nat (length a))) as [Hl | Hl]; [| auto].
  destruct (aget_in_range a i) as [v Hv]; [lia | congruence].
Qed.

Lemma length_aset {A : Type} (a : list A) (i : Z) (v : A) :
  length (aset a i v) = length a.
Proof. unfold aset. destruct (i <? 0); [done | apply length_insert]. Qed.

Lemma aget_aset_eq {A : Type} (a : list A) (i : Z) (v : A) :
  0 <= i < Z.of_nat (length a) -> aget (aset a i v) i = Some v.
Proof.
  intros Hi. unfold aget, aset.
  destruct (Z.ltb_spec i 0) as [Hn | Hn]; [lia |].
  apply list_lookup_insert_eq. lia.
Qed.

Lemma aget_aset_ne {A : Type} (a : list A) (i j : Z) (v : A) :
  i <> j -> aget (aset a i v) j = aget a j.
Proof.
  intros Hij. unfold aget, aset.
  destruct (Z.ltb_spec j 0) as [Hj | Hj]; [done |].
  destruct (Z.ltb_spec i 0) as [Hi | Hi]; [done |].
  apply list_lookup_insert_ne. lia.
Qed.

Lemma aget_aset {A : Type} (a : list A) (i j : Z) (v : A) :
  aget (aset a i v) j
  = if decide (i = j /\ 0 <= i < Z.of_nat (length a)) then Some v
    else aget a j.
Proof.
  destruct (decide (i = j /\ 0 <= i < Z.of_nat (length a))) as [[-> Hr] | Hn].
  - by apply aget_aset_eq.
  - destruct (decide (i = j)) as [-> | Hij]; [| by apply aget_aset_ne].
    unfold aget, aset. destruct (Z.ltb_spec j 0) as [Hj | Hj]; [done |].
    rewrite list_insert_ge; [done | lia].
Qed.

Lemma aset_nil {A : Type} (i : Z) (v : A) : aset [] i v = [].
Proof. unfold aset. by destruct (i <? 0). Qed.

Lemma truthy_aset_one (a : list Z) (i j : Z) :
  truthy (aget a j) = true -> truthy (aget (aset a i 1) j) = true.
Proof.
  rewrite aget_aset. destruct (decide _); [done | auto].
Qed.

(** ** Loop ranges *)

Lemma elem_of_zseq (lo : Z) (n : nat) (k : Z) :
  k ∈ zseq lo n <-> lo <= k < lo + Z.of_nat n.
Proof.
  revert lo. induction n as [| n IH]; intros lo; simpl.
  - rewrite elem_of_nil. lia.
  - rewrite elem_of_cons, IH. lia.
Qed.

Lemma length_zseq (lo : Z) (n : nat) : length (zseq lo n) = n.
Proof. revert lo. induction n as [| n IH]; intros lo; simpl; auto. Qed.

Lemma NoDup_zseq (lo : Z) (n : nat) : NoDup (zseq lo n).
Proof.
  revert lo. induction n as [| n IH]; intros lo; simpl; constructor; auto.
  rewrite elem_of_zseq. lia.
Qed.

Lemma elem_of_upto (n k : Z) : k ∈ upto n <-> 0 <= k < n.
Proof. unfold upto. rewrite elem_of_zseq. lia. Qed.

Lemma elem_of_around (r k : Z) : 0 <= r -> k ∈ around r <-> - r <= k <= r.
Proof. intros Hr. unfold around. rewrite elem_of_zseq. lia. Qed.

Lemma elem_of_cells (cols rows x y : Z) :
  (x, y) ∈ cells cols rows <-> (0 <= x < cols /\ 0 <= y < rows).
Proof.
  unfold cells. rewrite list_elem_of_bind. split.
  - intros (y' & Hx & Hy). apply list_elem_of_bind in Hx as (x' & Hc & Hx).
    apply list_elem_of_singleton in Hc. inversion Hc; subst.
    apply elem_of_upto in Hx, Hy. lia.
  - intros [Hx Hy]. exists y. split; [| by apply elem_of_upto].
    apply list_elem_of_bind. exists x. split; [| by apply elem_of_upto].
    by apply list_elem_of_singleton.
Qed.

Lemma elem_of_offsets (r dx dy : Z) :
  0 <= r -> (dx, dy) ∈ offsets r <-> (- r <= dx <= r /\ - r <= dy <= r).
Proof.
  intros Hr. unfold offsets. rewrite list_elem_of_bind. split.
  - intros (y' & Hx & Hy). apply list_elem_of_bind in Hx as (x' & Hc & Hx).
    apply list_elem_of_singleton in Hc. inversion Hc; subst.
    apply elem_of_around in Hx, Hy; lia.
  - intros [Hx Hy]. exists dy. split; [| by apply elem_of_around].
    apply list_elem_of_bind. exists dx. split; [| by apply elem_of_around].
    by apply list_elem_of_singleton.
Qed.

Lemma inGrid_true (cols rows x y : Z) :
  inGrid cols rows x y = true <-> (0 <= x < cols /\ 0 <= y < rows).
Proof.
  unfold inGrid. rewrite negb_true_iff, !orb_false_iff.
  rewrite !Z.ltb_ge, !Z.leb_gt. lia.
Qed.

Lemma cell_index_range (cols rows x y : Z) :
  0 <= x < cols -> 0 <= y < rows -> 0 <= y * cols + x < cols * rows.
Proof. intros Hx Hy. nia. Qed.

Lemma cell_index_inj (cols x y x' y' : Z) :
  0 <= x < cols -> 0 <= x' < cols ->
  y * cols + x = y' * cols + x' -> x = x' /\ y = y'.
Proof. intros Hx Hx' He. assert (y = y') by nia. subst. lia. Qed.

Lemma cell_of_index (cols rows k : Z) :
  0 < cols -> 0 <= k < cols * rows ->
  0 <= Z.rem k cols < cols /\ 0 <= k / cols < rows
  /\ k = k / cols * cols + Z.rem k cols.
Proof.
  intros Hc Hk. rewrite Z.rem_mod_nonneg by lia.
  pose proof (Z.mod_pos_bound k cols Hc) as Hm.
  pose proof (Z.div_mod k cols ltac:(lia)) as Hd.
  assert (0 <= k / cols) by (apply Z.div_pos; lia).
  assert (k / cols < rows) by (apply Z.div_lt_upper_bound; lia).
  lia.
Qed.

(** ** Rational comparisons *)

Lemma Qlt_bool_iff (a b : Q) : Qlt_bool a b = true <-> (a < b)%Q.
Proof.
  unfold Qlt_bool. rewrite negb_true_iff. split.
  - intros Hf. apply Qnot_le_lt. intros Hle.
    apply Qle_bool_iff in Hle. congruence.
  - intros Hlt. destruct (Qle_bool b a) eqn:He; [| done].
    apply Qle_bool_iff in He. exfalso. by apply (Qlt_not_le a b).
Qed.

Lemma Qlt_bool_max (b p q : Q) :
  Qlt_bool b (Qmax p q) = Qlt_bool b p || Qlt_bool b q.
Proof.
  apply eq_true_iff_eq. rewrite orb_true_iff, !Qlt_bool_iff.
  apply Q.max_lt_iff.
Qed.

Lemma Qlt_bool_irrefl_const : Qlt_bool 0.08 0 = false.
Proof. reflexivity. Qed.

Lemma filter_cons_bool {A : Type} (f : A -> bool) (a : A) (l : list A) :
  filter (λ c, f c) (a :: l)
  = if f a then a :: filter (λ c, f c) l else filter (λ c, f c) l.
Proof.
  rewrite filter_cons. destruct (f a) eqn:Hf.
  - rewrite decide_True; [done | exact I].
  - rewrite decide_False; [done | exact id].
Qed.

(** ** Terrain classification *)

Section Classification.

Variables (cols rows : Z) (terrainHeight : list Q).

(** Writing [f i] at every index of a list of indices. *)
Lemma foldl_aset_lookup {A : Type} (f : Z -> A) (l : list Z) (a : list A)
    (j : Z) :
  0 <= j < Z.of_nat (length a) ->
  aget (foldl (λ t i, aset t i (f i)) a l) j
  = if decide (j ∈ l) then Some (f j) else aget a j.
Proof.
  revert a. induction l as [| i l IH]; intros a Hj; cbn [foldl].
  - rewrite decide_False; [done | apply not_elem_of_nil].
  - rewrite IH by (by rewrite length_aset).
    destruct (decide (j ∈ l)) as [Hl | Hl].
    + rewrite decide_True; [done | by right].
    + destruct (decide (j = i)) as [-> | Hne].
      * rewrite decide_True by left. by apply aget_aset_eq.
      * rewrite decide_False.
        -- by apply aget_aset_ne.
        -- rewrite elem_of_cons. tauto.
Qed.

Lemma foldl_aset_length {A B : Type} (f : list A -> B -> Z * A)
    (l : list B) (a : list A) :
  length (foldl (λ t c, aset t (f t c).1 (f t c).2) a l) = length a.
Proof.
  revert a. induction l as [| c l IH]; intros a; simpl; [done |].
  by rewrite IH, length_aset.
Qed.

Lemma assignTypes_lookup (size : Z) (ew tt : list Z) (i : Z) :
  Z.of_nat (length tt) = size -> 0 <= i < size ->
  aget (assignTypes size terrainHeight ew tt) i
  = Some (assignType (aget terrainHeight i) (truthy (aget ew i))).
Proof.
  intros Hl Hi. unfold assignTypes.
  rewrite (foldl_aset_lookup
             (λ i, assignType (aget terrainHeight i) (truthy (aget ew i))))
    by lia.
  rewrite decide_True; [done | apply elem_of_upto; lia].
Qed.

Lemma assignTypes_length (size : Z) (ew tt : list Z) :
  length (assignTypes size terrainHeight ew tt) = length tt.
Proof.
  unfold assignTypes. generalize (upto size) as l. intros l. revert tt.
  induction l as [| i l IH]; intros tt; simpl; [done |].
  by rewrite IH, length_aset.
Qed.

Lemma cliffAt_unfold (tt : list Z) (c : Z * Z) :
  cliffAt cols rows terrainHeight tt c
  = if isWater (aget tt (c.2 * cols + c.1)) then tt
    else if cliffy cols rows terrainHeight c then aset tt (c.2 * cols + c.1) 3 else tt.
Proof.
  unfold cliffAt, cliffy, isWater.
  destruct (aget tt (c.2 * cols + c.1)) as [[| p | p] |]; try reflexivity.
  destruct p as [p | p |]; try reflexivity.
  destruct p as [p | p |]; try reflexivity.
  destruct p as [p | p |]; reflexivity.
Qed.

Lemma cliffAt_length (tt : list Z) (c : Z * Z) :
  length (cliffAt cols rows terrainHeight tt c) = length tt.
Proof.
  rewrite cliffAt_unfold.
  destruct (isWater _); [done |].
  destruct (cliffy cols rows terrainHeight c); [apply length_aset | done].
Qed.

Lemma detectCliffs_length (tt : list Z) :
  length (detectCliffs cols rows terrainHeight tt) = length tt.
Proof.
  unfold detectCliffs. generalize (cells cols rows) as l. intros l.
  revert tt. induction l as [| c l IH]; intros tt; simpl; [done |].
  by rewrite IH, cliffAt_length.
Qed.

(** The loop over the cells changes an element only at a cell that
    passes the test, and never a water cell. *)
Lemma foldl_cliffAt_lookup (l : list (Z * Z)) (tt : list Z) (j : Z) :
  0 <= j < Z.of_nat (length tt) ->
  aget (foldl (cliffAt cols rows terrainHeight) tt l) j
  = if existsb (λ c, (c.2 * cols + c.1 =? j) && cliffy cols rows terrainHeight c) l
       && negb (isWater (aget tt j))
    then Some 3 else aget tt j.
Proof.
  revert tt. induction l as [| c l IH]; intros tt Hj; [done |].
  cbn [foldl existsb]. rewrite IH by (by rewrite cliffAt_length).
  rewrite cliffAt_unfold.
  generalize (existsb
                (λ c0 : Z * Z, (c0.2 * cols + c0.1 =? j)
                               && cliffy cols rows terrainHeight c0) l).
  intros E.
  destruct (Z.eqb_spec (c.2 * cols + c.1) j) as [He | He].
  - rewrite He.
    destruct (isWater (aget tt j)) eqn:Hw.
    + rewrite Hw. by rewrite !andb_false_r.
    + destruct (cliffy cols rows terrainHeight c) eqn:Hc.
      * rewrite aget_aset_eq by done. by destruct E.
      * by rewrite Hw.
  - rewrite andb_false_l, orb_false_l.
    destruct (isWater (aget tt (c.2 * cols + c.1))); [done |].
    destruct (cliffy cols rows terrainHeight c); [| done].
    by rewrite aget_aset_ne.
Qed.

Lemma existsb_cells (x y : Z) :
  0 <= x < cols -> 0 <= y < rows ->
  existsb (λ c, (c.2 * cols + c.1 =? y * cols + x) && cliffy cols rows terrainHeight c)
    (cells cols rows)
  = cliffy cols rows terrainHeight (x, y).
Proof.
  intros Hx Hy. apply eq_true_iff_eq. rewrite existsb_exists. split.
  - intros ([x' y'] & Hin & Hc). apply andb_true_iff in Hc as [He Hc].
    apply list_elem_of_In, elem_of_cells in Hin. simpl in He.
    apply Z.eqb_eq, cell_index_inj in He as [-> ->]; [done | lia | lia].
  - intros Hc. exists (x, y). split.
    + apply list_elem_of_In, elem_of_cells. lia.
    + simpl. by rewrite Z.eqb_refl.
Qed.

Hypothesis height_length :
  Z.of_nat (length terrainHeight) = cols * rows.

Lemma heightOf_get (x y : Z) :
  0 <= x < cols -> 0 <= y < rows ->
  aget terrainHeight (y * cols + x)
  = Some (heightOf cols terrainHeight x y).
Proof.
  intros Hx Hy. unfold heightOf.
  destruct (aget_in_range terrainHeight (y * cols + x)) as [v ->];
    [| done].
  rewrite height_length. by apply cell_index_range.
Qed.

(** The running maximum of the source exceeds the bound exactly when
    the maximum over the four in-grid neighbours does. *)
Lemma cliffy_spec (x y : Z) :
  0 <= x < cols -> 0 <= y < rows ->
  cliffy cols rows terrainHeight (x, y)
  = Qlt_bool 0.08 (maxHeightDiff (heightOf cols terrainHeight) cols rows x y).
Proof.
  intros Hx Hy. unfold cliffy, maxHeightDiff, fourNeighbours. simpl fst.
  simpl snd. rewrite (heightOf_get x y) by done.
  set (h := heightOf cols terrainHeight).
  assert (Hup : (0 <? y) = inGrid cols rows x (y - 1)).
  { apply eq_true_iff_eq. rewrite inGrid_true, Z.ltb_lt. lia. }
  assert (Hdown : (y <? rows - 1) = inGrid cols rows x (y + 1)).
  { apply eq_true_iff_eq. rewrite inGrid_true, Z.ltb_lt. lia. }
  assert (Hleft : (0 <? x) = inGrid cols rows (x - 1) y).
  { apply eq_true_iff_eq. rewrite inGrid_true, Z.ltb_lt. lia. }
  assert (Hright : (x <? cols - 1) = inGrid cols rows (x + 1) y).
  { apply eq_true_iff_eq. rewrite inGrid_true, Z.ltb_lt. lia. }
  rewrite Hup, Hdown, Hleft, Hright.
  assert (Hstep : forall nx ny m,
             inGrid cols rows nx ny = true ->
             forall j, j = ny * cols + nx ->
             maxDiffWith terrainHeight (Some (h x y)) j (Some m)
             = Some (Qmax m (Qabs (h x y - h nx ny)))).
  { intros nx ny m Hin j ->. apply inGrid_true in Hin as [Hnx Hny].
    unfold maxDiffWith. by rewrite (heightOf_get nx ny). }
  assert (Hs : forall nx ny j m,
             j = ny * cols + nx -> inGrid cols rows nx ny = true ->
             maxDiffWith terrainHeight (Some (h x y)) j (Some m)
             = Some (Qmax m (Qabs (h x y - h nx ny)))).
  { intros nx ny j m -> Hin. by apply Hstep. }
  pose proof (fun m => Hs (x - 1) y (y * cols + x - 1) m ltac:(lia)) as H1.
  pose proof (fun m => Hs (x + 1) y (y * cols + x + 1) m ltac:(lia)) as H2.
  pose proof (fun m => Hs x (y - 1) (y * cols + x - cols) m ltac:(lia))
    as H3.
  pose proof (fun m => Hs x (y + 1) (y * cols + x + cols) m ltac:(lia))
    as H4.
  clear Hs Hstep Hup Hdown Hleft Hright.
  rewrite !(filter_cons_bool (λ c : Z * Z, inGrid cols rows c.1 c.2)).
  rewrite filter_nil. simpl fst. simpl snd.
  destruct (inGrid cols rows (x - 1) y) eqn:Hl;
    destruct (inGrid cols rows (x + 1) y) eqn:Hr;
    destruct (inGrid cols rows x (y - 1)) eqn:Hu;
    destruct (inGrid cols rows x (y + 1)) eqn:Hd;
    rewrite ?H1, ?H2, ?H3, ?H4 by done;
    cbn [foldr fst snd];
    rewrite ?Qlt_bool_max, ?Qlt_bool_irrefl_const, ?orb_false_r,
      ?orb_false_l;
    destruct (Qlt_bool 0.08 (Qabs (h x y - h (x - 1) y)));
    destruct (Qlt_bool 0.08 (Qabs (h x y - h (x + 1) y)));
    destruct (Qlt_bool 0.08 (Qabs (h x y - h x (y - 1))));
    destruct (Qlt_bool 0.08 (Qabs (h x y - h x (y + 1))));
    reflexivity.
Qed.

Lemma classifyTerrain_length (expandedWater : list Z) :
  Z.of_nat (length (classifyTerrain cols rows terrainHeight expandedWater))
  = Z.max 0 (cols * rows).
Proof.
  unfold classifyTerrain.
  rewrite detectCliffs_length, assignTypes_length, length_replicate. lia.
Qed.

Lemma classifyTerrain_lookup (expandedWater : list Z) (x y : Z) :
  0 <= x < cols -> 0 <= y < rows ->
  aget (classifyTerrain cols rows terrainHeight expandedWater)
       (y * cols + x)
  = Some (typeCode
            (specTerrain (heightOf cols terrainHeight)
               (waterOf cols expandedWater) cols rows x y)).
Proof.
  intros Hx Hy. pose proof (cell_index_range cols rows x y Hx Hy) as Hr.
  unfold classifyTerrain, detectCliffs.
  rewrite foldl_cliffAt_lookup
    by (rewrite assignTypes_length, length_replicate; lia).
  rewrite existsb_cells, cliffy_spec by done.
  rewrite assignTypes_lookup by (rewrite ?length_replicate; lia).
  rewrite heightOf_get by done.
  unfold specTerrain, assignType, waterOf, below.
  destruct (truthy (aget expandedWater (y * cols + x))); simpl.
  - by rewrite andb_false_r.
  - destruct (Qlt_bool 0.08 _); simpl.
    + by destruct (Qlt_bool _ 0.32); [| destruct (Qlt_bool _ 0.6)].
    + by destruct (Qlt_bool _ 0.32); [| destruct (Qlt_bool _ 0.6)].
Qed.

End Classification.

(** ** The relation between a world and a later one *)

Lemma depositsKept_refl (ds : list deposit) : depositsKept ds ds.
Proof. apply Forall2_same_length_lookup_2; [done |]. intros i d d' H1 H2.
  assert (d = d') by congruence. subst. auto.
Qed.

Lemma depositsKept_trans (a b c : list deposit) :
  depositsKept a b -> depositsKept b c -> depositsKept a c.
Proof.
  unfold depositsKept. intros Hab. revert c.
  induction Hab as [| x y l l' Hxy Hab IH]; intros c Hbc.
  - inversion Hbc. constructor.
  - inversion Hbc as [| y' z l'' l3 Hyz Hbc']; subst. constructor; [| auto].
    destruct Hxy as (? & ? & ? & ?), Hyz as (? & ? & ? & ?).
    repeat split; try congruence. auto.
Qed.

Lemma edges_kept (w : world) (l : list Z) :
  exists added, l = l ++ added /\ NoDup added
    /\ forall k, k ∈ added -> (k ∉ l) /\ 0 <= k < cols w * rows w.
Proof.
  exists []. rewrite app_nil_r. split; [done |]. split; [constructor |].
  intros k Hk. by apply elem_of_nil in Hk.
Qed.

Lemma evolves_refl (w : world) : evolves w w.
Proof.
  constructor; try done; try lia; try (intros; by left).
  - apply edges_kept.
  - intros H. split; [apply Qle_refl | done].
  - apply depositsKept_refl.
  - apply depositsKept_refl.
Qed.


Lemma evolves_trans (a b c : world) : evolves a b -> evolves b c -> evolves a c.
Proof.
  intros [] []. constructor; try congruence; try tauto; try lia.
  - intros i Hi. auto.
  - destruct ev_edges0 as (ad1 & He1 & Hn1 & Hr1).
    destruct ev_edges1 as (ad2 & He2 & Hn2 & Hr2).
    exists (ad1 ++ ad2). rewrite He2, He1, app_assoc. split; [done |].
    split.
    + apply NoDup_app. split_and!; [done | | done].
      intros k Hk1 Hk2. apply Hr2 in Hk2 as [Hk2 _]. apply Hk2.
      rewrite He1. apply elem_of_app. auto.
    + intros k Hk. apply elem_of_app in Hk as [Hk | Hk].
      * auto.
      * apply Hr2 in Hk as [Hk Hr]. split.
        -- intros Hin. apply Hk. rewrite He1. apply elem_of_app. auto.
        -- by rewrite <- ev_cols0, <- ev_rows0.
  - intros Hl k Hk.
    destruct (ev_members1 ltac:(congruence) k Hk) as [Hb | Ho]; [| by right].
    destruct (ev_members0 Hl k Hb) as [Ha | Ho]; [by left | right; auto].
  - intros H3. destruct (ev_boost0 H3) as [H1 H2].
    destruct (ev_boost1 H2) as [H4 H5]. split; [| done].
    by apply Qle_trans with (resourceBoost b).
  - by apply depositsKept_trans with (minerals b).
  - by apply depositsKept_trans with (vespene b).
Qed.

Lemma evolves_edges_incl (w w' : world) (k : Z) :
  evolves w w' -> k ∈ activeEdges w -> k ∈ activeEdges w'.
Proof.
  intros [] Hk. destruct ev_edges0 as (ad & -> & _). apply elem_of_app. auto.
Qed.

Lemma grows_refl (w : world) : grows w w.
Proof. split; [apply evolves_refl |]. intros i H1 H2. contradiction. Qed.

Lemma grows_trans (a b c : world) : grows a b -> grows b c -> grows a c.
Proof.
  intros [Eab Fab] [Ebc Fbc]. split; [by apply evolves_trans with b |].
  intros i Hc Ha.
  destruct (truthy (aget (creepGrid b) i)) eqn:Hb.
  - apply (evolves_edges_incl b c); [done |]. by apply Fab.
  - apply Fbc; [done |]. unfold occupied. congruence.
Qed.

(** The updates the operations are made of. *)

Ltac evolves_frame :=
  constructor; simpl; unfold occupiedCells, occupied; simpl;
  try done; try lia; try (intros; by left);
  try apply edges_kept; try apply depositsKept_refl;
  try (intros ?; split; [apply Qle_refl | done]).

Lemma evolves_set_creepAge (w : world) (a : list Q) :
  length a = length (creepAge w) -> evolves w (set_creepAge w a).
Proof. intros Hl. evolves_frame. Qed.

Lemma evolves_set_rng (w : world) (n : nat) : evolves w (set_rng w n).
Proof. evolves_frame. Qed.

Lemma evolves_set_buildings (w : world) (b : list building) :
  evolves w (set_buildings w b).
Proof. evolves_frame. Qed.

Lemma evolves_set_gathered (w : world) (m v : Z) :
  (0 <= mineralsGathered w -> 0 <= m) ->
  (0 <= vespeneGathered w -> 0 <= v) ->
  evolves w (set_vespeneGathered (set_mineralsGathered w m) v).
Proof. intros Hm Hv. evolves_frame. Qed.

Lemma evolves_set_mineralsGathered (w : world) (m : Z) :
  (0 <= mineralsGathered w -> 0 <= m) ->
  evolves w (set_mineralsGathered w m).
Proof. intros Hm. evolves_frame. Qed.

Lemma evolves_set_vespeneGathered (w : world) (v : Z) :
  (0 <= vespeneGathered w -> 0 <= v) ->
  evolves w (set_vespeneGathered w v).
Proof. intros Hv. evolves_frame. Qed.

Lemma evolves_set_resourceBoost (w : world) (d : Q) :
  (0 <= d)%Q ->
  evolves w (set_resourceBoost w (Qmin 3 (resourceBoost w + d))).
Proof.
  intros Hd. evolves_frame.
  intros H. split; [| apply Q.le_min_l].
  apply Q.min_glb; [done |].
  rewrite <- (Qplus_0_r (resourceBoost w)) at 1.
  by apply Qplus_le_r.
Qed.

Lemma evolves_set_minerals (w : world) (ms : list deposit) :
  depositsKept (minerals w) ms -> evolves w (set_minerals w ms).
Proof. intros Hk. evolves_frame. Qed.

Lemma evolves_set_vespene (w : world) (vs : list deposit) :
  depositsKept (vespene w) vs -> evolves w (set_vespene w vs).
Proof. intros Hk. evolves_frame. Qed.

Lemma ones_insert (g : list Z) (n : nat) :
  (length (filter (λ v : Z, v = 1%Z) (<[n:=1%Z]> g))
   <= S (length (filter (λ v : Z, v = 1%Z) g)))%nat.
Proof.
  revert n. induction g as [| v g IH]; intros n; [simpl; lia |].
  destruct n as [| n]; simpl.
  - rewrite ?filter_cons. destruct (decide (v = 1)); simpl; lia.
  - rewrite ?filter_cons. specialize (IH n).
    destruct (decide (v = 1)); simpl; lia.
Qed.

Lemma ones_aset (g : list Z) (i : Z) :
  Z.of_nat (length (filter (λ v, v = 1) (aset g i 1)))
  <= Z.of_nat (length (filter (λ v, v = 1) g)) + 1.
Proof.
  unfold aset. destruct (i <? 0); [lia |].
  pose proof (ones_insert g (Z.to_nat i)). lia.
Qed.

(** A cell is occupied and counted, without touching the frontier. *)
Lemma evolves_occupy (w : world) (i : Z) :
  evolves w (set_creepCount (set_creepGrid w (aset (creepGrid w) i 1))
               (creepCount w + 1)).
Proof.
  evolves_frame.
  - apply length_aset.
  - intros j. apply truthy_aset_one.
  - pose proof (ones_aset (creepGrid w) i). lia.
Qed.

Lemma edges_set_add (w : world) (i : Z) :
  0 <= i < cols w * rows w ->
  exists added,
    set_add i (activeEdges w) = activeEdges w ++ added /\ NoDup added
    /\ forall k, k ∈ added ->
         (k ∉ activeEdges w) /\ 0 <= k < cols w * rows w.
Proof.
  intros Hi. unfold set_add.
  destruct (decide (i ∈ activeEdges w)) as [Hin | Hin].
  - apply edges_kept.
  - exists [i]. split; [done |]. split; [apply NoDup_singleton |].
    intros k Hk. apply list_elem_of_singleton in Hk. by subst.
Qed.

Lemma elem_of_set_add (k i : Z) (s : list Z) :
  k ∈ set_add i s <-> k = i \/ k ∈ s.
Proof.
  unfold set_add. destruct (decide (i ∈ s)) as [Hin | Hin].
  - split; [auto |]. intros [-> | H]; auto.
  - rewrite elem_of_app, list_elem_of_singleton. tauto.
Qed.

Lemma elem_of_set_delete (k i : Z) (s : list Z) :
  k ∈ set_delete i s <-> k <> i /\ k ∈ s.
Proof. unfold set_delete. by rewrite list_elem_of_filter. Qed.

Lemma Some_eq {A : Type} (a b : A) : Some a = Some b -> b = a.
Proof. congruence. Qed.

(** ** The hatchery spawner *)

Section Spawner.

Variable rnd : nat -> Q.

Lemma infestAt_grows (chosen : Z * Z) (w : world) (d : Z * Z) :
  grows w (infestAt chosen w d).
Proof.
  unfold infestAt.
  destruct (inGrid (cols w) (rows w) (chosen.1 + d.1) (chosen.2 + d.2))
    eqn:Hin; simpl; [| apply grows_refl].
  apply inGrid_true in Hin as [Hx Hy].
  pose proof (cell_index_range _ _ _ _ Hx Hy) as Hr.
  set (idx := (chosen.2 + d.2) * cols w + (chosen.1 + d.1)) in *.
  destruct (walkable (aget (terrainType w) idx)); [| apply grows_refl].
  destruct (truthy (aget (creepGrid w) idx)) eqn:Ht; simpl.
  - destruct (aget (creepAge w) idx) as [a |]; [| apply grows_refl].
    split; [apply evolves_set_creepAge, length_aset |].
    intros i H1 H2. contradiction.
  - split.
    + evolves_frame.
      * apply length_aset.
      * apply length_aset.
      * intros j. apply truthy_aset_one.
      * by apply edges_set_add.
      * intros Hl k Hk. apply elem_of_set_add in Hk as [-> | Hk];
          [right | by left].
        rewrite aget_aset_eq by lia. done.
      * pose proof (ones_aset (creepGrid w) idx). lia.
    + intros i. unfold occupied. simpl. rewrite aget_aset.
      destruct (decide _) as [[-> _] | _]; [| contradiction].
      intros _ _. apply elem_of_set_add. auto.
Qed.

Lemma infestAt_frame (chosen : Z * Z) (w : world) (d : Z * Z) :
  let w' := infestAt chosen w d in
  mineralsGathered w' = mineralsGathered w
  /\ vespeneGathered w' = vespeneGathered w
  /\ buildings w' = buildings w /\ minerals w' = minerals w
  /\ vespene w' = vespene w /\ resourceBoost w' = resourceBoost w
  /\ rng w' = rng w.
Proof.
  unfold infestAt.
  destruct (inGrid _ _ _ _); simpl; [| done].
  destruct (walkable _); [| done].
  destruct (truthy _); simpl; [| done].
  by destruct (aget (creepAge w) _).
Qed.

Lemma infest_grows (chosen : Z * Z) (w : world) :
  grows w (infest chosen w).
Proof.
  unfold infest. generalize (offsets 1) as l. intros l.
  revert w. induction l as [| d l IH]; intros w; cbn [foldl].
  - apply grows_refl.
  - eapply grows_trans; [apply infestAt_grows | apply IH].
Qed.

Lemma infest_frame (chosen : Z * Z) (w : world) :
  let w' := infest chosen w in
  mineralsGathered w' = mineralsGathered w
  /\ vespeneGathered w' = vespeneGathered w
  /\ buildings w' = buildings w /\ minerals w' = minerals w
  /\ vespene w' = vespene w /\ resourceBoost w' = resourceBoost w
  /\ rng w' = rng w.
Proof.
  unfold infest. generalize (offsets 1) as l. intros l.
  revert w. induction l as [| d l IH]; intros w; cbn [foldl]; [done |].
  destruct (IH (infestAt chosen w d)) as (? & ? & ? & ? & ? & ? & ?).
  destruct (infestAt_frame chosen w d) as (? & ? & ? & ? & ? & ? & ?).
  repeat split; congruence.
Qed.

(** The candidates are the occupied walkable cells of the grid within
    4 of the tile. *)
Lemma elem_of_candidates (w : world) (tileX tileY : Z) (c : Z * Z) :
  c ∈ candidatesNear w tileX tileY
  <-> (- 4 <= c.1 - tileX <= 4 /\ - 4 <= c.2 - tileY <= 4
       /\ inWorld w c.1 c.2
       /\ walkable (aget (terrainType w) (cellIndex w c.1 c.2)) = true
       /\ occupied w (cellIndex w c.1 c.2)).
Proof.
  assert (Hgen : forall l acc,
             c ∈ foldl (candidateAt w tileX tileY) acc l
             <-> c ∈ acc
                 \/ ((c.1 - tileX, c.2 - tileY) ∈ l /\ inWorld w c.1 c.2
                     /\ walkable (aget (terrainType w)
                                    (cellIndex w c.1 c.2)) = true
                     /\ occupied w (cellIndex w c.1 c.2))).
  { induction l as [| d l IH]; intros acc; simpl.
    - rewrite elem_of_nil. tauto.
    - rewrite IH, elem_of_cons. unfold candidateAt.
      destruct (inGrid (cols w) (rows w) (tileX + d.1) (tileY + d.2))
        eqn:Hin; simpl.
      + destruct (walkable _ && truthy _) eqn:Hc.
        * rewrite elem_of_app, list_elem_of_singleton.
          apply andb_true_iff in Hc as [Hw Ho].
          apply inGrid_true in Hin. split.
          -- intros [[Ha | ->] | Hr]; [tauto | | tauto]. right.
             simpl. split; [left; destruct d; simpl; f_equal; lia |].
             unfold inWorld, cellIndex, occupied. simpl. tauto.
          -- intros [Ha | ([He | Hl] & Hr)]; [tauto | | tauto].
             left. right. destruct c, d. simpl in *. inversion He.
             f_equal; lia.
        * split; [tauto |].
          intros [Ha | ([He | Hl] & Hi & Hw & Ho)]; [tauto | | tauto].
          exfalso. destruct c as [cx cy], d as [dx dy]. simpl in *.
          inversion He; subst. unfold cellIndex, occupied in *.
          replace (tileX + (cx - tileX)) with cx in Hc by lia.
          replace (tileY + (cy - tileY)) with cy in Hc by lia.
          rewrite Hw, Ho in Hc. discriminate.
      + split; [tauto |].
        intros [Ha | ([He | Hl] & Hi & Hr)]; [tauto | | tauto].
        exfalso. destruct c as [cx cy], d as [dx dy]. simpl in *.
        inversion He; subst.
        replace (tileX + (cx - tileX)) with cx in Hin by lia.
        replace (tileY + (cy - tileY)) with cy in Hin by lia.
        apply inGrid_true in Hi. congruence. }
  unfold candidatesNear.
  rewrite Hgen, elem_of_nil, elem_of_offsets by lia. tauto.
Qed.

Lemma maybeSpawn_outcome (tileX tileY : Z) (w w' : world) :
  maybeSpawnHatcheryNear rnd tileX tileY w = Some w' ->
  spawnOutcome rnd tileX tileY w w'.
Proof.
  unfold maybeSpawnHatcheryNear, random.
  destruct (_ || _) eqn:Hgate.
  { intros [= <-]. apply GateClosed; [| done].
    apply orb_true_iff in Hgate as [H | H]; apply Z.ltb_lt in H; auto. }
  apply orb_false_iff in Hgate as [Hm Hv].
  apply Z.ltb_ge in Hm, Hv.
  destruct (Qlt_bool HATCHERY_SPAWN_CHANCE (rnd (rng w))) eqn:Hcoin.
  { intros [= <-]. apply CoinLost; [| done]. by apply Qlt_bool_iff. }
  assert (Hle : (rnd (rng w) <= HATCHERY_SPAWN_CHANCE)%Q).
  { apply Qnot_lt_le. intros Hlt. apply Qlt_bool_iff in Hlt. congruence. }
  set (w1 := set_rng w (S (rng w))).
  set (cands := candidatesNear w1 tileX tileY).
  destruct (length cands =? 0)%nat eqn:Hlen.
  { intros [= <-]. apply NoCandidate; [| done].
    intros c Hc. apply (elem_of_candidates w1) in Hc. fold cands in Hc.
    apply Nat.eqb_eq, length_zero_iff_nil in Hlen.
    rewrite Hlen in Hc. by apply elem_of_nil in Hc. }
  destruct (aget cands _) as [chosen |] eqn:Hch; [| discriminate].
  intros Heq%Some_eq.
  assert (Hin : chosen ∈ cands).
  { unfold aget in Hch. destruct (_ <? 0); [discriminate |].
    by apply list_elem_of_lookup_2 in Hch. }
  apply (elem_of_candidates w1) in Hin as (H & H0 & H1 & H2 & H3).
  set (w3 := set_buildings _ _) in *.
  destruct (infest_frame chosen w3) as (Hmg & Hvg & Hb & _).
  set (w4 := infest chosen w3) in *.
  clearbody w4. subst w'.
  apply (Spawned _ _ _ _ _ chosen);
    [exact Hm | exact Hv | exact Hle | exact H | exact H0 | exact H1
    | exact H2 | exact H3 | ..];
    simpl; rewrite ?Hb, ?Hmg, ?Hvg; reflexivity.
Qed.

Lemma maybeSpawn_grows (tileX tileY : Z) (w w' : world) :
  maybeSpawnHatcheryNear rnd tileX tileY w = Some w' -> grows w w'.
Proof.
  unfold maybeSpawnHatcheryNear, random.
  destruct (_ || _) eqn:Hgate; [intros [= <-]; apply grows_refl |].
  apply orb_false_iff in Hgate as [Hm Hv].
  apply Z.ltb_ge in Hm, Hv. unfold HATCHERY_MINERAL_COST in Hm.
  unfold HATCHERY_VESPENE_COST in Hv.
  assert (Hrng : forall v n, grows v (set_rng v n)).
  { intros v n. split; [apply evolves_set_rng |].
    intros i H1 H2. contradiction. }
  destruct (Qlt_bool _ _); [intros [= <-]; apply Hrng |].
  destruct (length _ =? 0)%nat; [intros [= <-]; apply Hrng |].
  destruct (aget _ _) as [chosen |]; [| discriminate].
  intros Heq%Some_eq. subst w'.
  match goal with
  | |- context [infest ?c ?v] =>
      pose proof (infest_grows c v) as G4;
      destruct (infest_frame c v) as (Hmg & Hvg & _);
      revert G4 Hmg Hvg; generalize (infest c v)
  end.
  intros w4 G4 Hmg Hvg. simpl in Hmg, Hvg.
  eapply grows_trans; [| eapply grows_trans; [exact G4 |]].
  { eapply grows_trans; [apply (Hrng w) |].
    eapply grows_trans; [apply Hrng |].
    split; [apply evolves_set_buildings |].
    intros i H1 H2. contradiction. }
  split.
  - apply evolves_set_gathered; intros _.
    + rewrite Hmg. unfold HATCHERY_MINERAL_COST. lia.
    + simpl. rewrite Hvg. unfold HATCHERY_VESPENE_COST. lia.
  - intros i H1 H2. contradiction.
Qed.

End Spawner.

(** ** Resource discovery *)

Section Discovery.

Variable rnd : nat -> Q.

Lemma inReach_depleted (radiusSq x y : Z) (d : deposit) :
  depleted d = true -> inReach radiusSq x y d = false.
Proof. intros Hd. unfold inReach. by rewrite Hd. Qed.

Lemma discover_Some (radiusSq x y : Z) (ds ds' : list deposit)
    (m : deposit) :
  discover radiusSq x y ds = Some (m, ds') ->
  exists pre post,
    ds = pre ++ m :: post /\ ds' = pre ++ deplete m :: post
    /\ inReach radiusSq x y m = true
    /\ Forall (λ d, inReach radiusSq x y d = false) pre.
Proof.
  revert ds'. induction ds as [| d rest IH]; intros ds'; simpl;
    [discriminate |].
  destruct (inReach radiusSq x y d) eqn:Hd.
  - intros [= <- <-]. exists [], rest. by repeat split.
  - destruct (discover radiusSq x y rest) as [[m' rest'] |];
      [| discriminate].
    intros [= <- <-].
    destruct (IH rest' eq_refl) as (pre & post & -> & -> & Hm & Hpre).
    exists (d :: pre), post. repeat split; [done |]. by constructor.
Qed.

Lemma discover_None (radiusSq x y : Z) (ds : list deposit) :
  discover radiusSq x y ds = None
  <-> Forall (λ d, inReach radiusSq x y d = false) ds.
Proof.
  induction ds as [| d rest IH]; simpl; [by split |].
  destruct (inReach radiusSq x y d) eqn:Hd.
  - split; [discriminate |]. intros HF. inversion HF. congruence.
  - destruct (discover radiusSq x y rest) as [[m' rest'] |].
    + split; [discriminate |]. intros HF. inversion HF; subst.
      by apply IH in H2.
    + split; [| done]. intros _. constructor; [done |]. by apply IH.
Qed.

Lemma depositsKept_deplete (pre post : list deposit) (m : deposit) :
  depositsKept (pre ++ m :: post) (pre ++ deplete m :: post).
Proof.
  apply Forall2_app; [apply depositsKept_refl |].
  constructor; [by repeat split | apply depositsKept_refl].
Qed.

Lemma maybeSpawn_frame (tileX tileY : Z) (w w' : world) :
  maybeSpawnHatcheryNear rnd tileX tileY w = Some w' ->
  minerals w' = minerals w /\ vespene w' = vespene w
  /\ resourceBoost w' = resourceBoost w.
Proof.
  unfold maybeSpawnHatcheryNear, random.
  destruct (_ || _); [by intros [= <-] |].
  destruct (Qlt_bool _ _); [by intros [= <-] |].
  destruct (length _ =? 0)%nat; [by intros [= <-] |].
  destruct (aget _ _) as [chosen |]; [| discriminate].
  intros Heq%Some_eq. subst w'.
  match goal with
  | |- context [infest ?c ?v] =>
      destruct (infest_frame c v) as (_ & _ & _ & Hmi & Hve & Hrb & _);
      revert Hmi Hve Hrb; generalize (infest c v)
  end.
  intros w4 Hmi Hve Hrb. simpl in *. auto.
Qed.

(** The three ways a call of [checkResource] ends. *)
Lemma checkResource_cases (idx x y : Z) (w w' : world)
    (res : option kind) :
  checkResource rnd idx x y w = Some (res, w') ->
  match res with
  | None =>
      w' = w
      /\ Forall (λ d, inReach 25 x y d = false) (minerals w)
      /\ Forall (λ d, inReach 36 x y d = false) (vespene w)
  | Some mineral =>
      exists pre m post,
        minerals w = pre ++ m :: post
        /\ Forall (λ d, inReach 25 x y d = false) pre
        /\ inReach 25 x y m = true
        /\ maybeSpawnHatcheryNear rnd (d_x m) (d_y m)
             (claimMineral w (pre ++ deplete m :: post) m) = Some w'
  | Some gas =>
      Forall (λ d, inReach 25 x y d = false) (minerals w)
      /\ exists pre v post,
           vespene w = pre ++ v :: post
           /\ Forall (λ d, inReach 36 x y d = false) pre
           /\ inReach 36 x y v = true
           /\ maybeSpawnHatcheryNear rnd (d_x v) (d_y v)
                (claimVespene w (pre ++ deplete v :: post) v) = Some w'
  end.
Proof.
  unfold checkResource.
  destruct (discover 25 x y (minerals w)) as [[m ms] |] eqn:Hm.
  - apply discover_Some in Hm as (pre & post & Hw & -> & Hin & Hpre).
    destruct (maybeSpawnHatcheryNear _ _ _ _) as [w5 |] eqn:Hs;
      [| discriminate].
    intros Heq. inversion Heq; subst. exists pre, m, post. auto.
  - apply discover_None in Hm.
    destruct (discover 36 x y (vespene w)) as [[v vs] |] eqn:Hv.
    + apply discover_Some in Hv as (pre & post & Hw & -> & Hin & Hpre).
      destruct (maybeSpawnHatcheryNear _ _ _ _) as [w5 |] eqn:Hs;
        [| discriminate].
      intros Heq. inversion Heq; subst. split; [done |].
      exists pre, v, post. auto.
    + apply discover_None in Hv. intros Heq. inversion Heq; subst. auto.
Qed.

Lemma boost_step (rb d : Q) :
  (0 <= d)%Q -> (rb <= 3)%Q -> (rb <= Qmin 3 (rb + d) /\ Qmin 3 (rb + d) <= 3)%Q.
Proof.
  intros Hd H. split; [| apply Q.le_min_l].
  apply Q.min_glb; [done |].
  rewrite <- (Qplus_0_r rb) at 1. by apply Qplus_le_r.
Qed.

Lemma claimMineral_grows (w : world) (pre post : list deposit)
    (m : deposit) :
  minerals w = pre ++ m :: post ->
  grows w (claimMineral w (pre ++ deplete m :: post) m).
Proof.
  intros Hw. split; [| intros i H1 H2; contradiction].
  unfold claimMineral. evolves_frame.
  - apply boost_step. unfold Qle. simpl. lia.
  - rewrite Hw. apply depositsKept_deplete.
Qed.

Lemma claimVespene_grows (w : world) (pre post : list deposit)
    (v : deposit) :
  vespene w = pre ++ v :: post ->
  grows w (claimVespene w (pre ++ deplete v :: post) v).
Proof.
  intros Hw. split; [| intros i H1 H2; contradiction].
  unfold claimVespene. evolves_frame.
  - apply boost_step. unfold Qle. simpl. lia.
  - rewrite Hw. apply depositsKept_deplete.
Qed.

Lemma checkResource_grows (idx x y : Z) (w w' : world)
    (res : option kind) :
  checkResource rnd idx x y w = Some (res, w') -> grows w w'.
Proof.
  intros Hc. apply checkResource_cases in Hc.
  destruct res as [[|] |].
  - destruct Hc as (pre & m & post & Hw & _ & _ & Hs).
    eapply grows_trans; [by apply claimMineral_grows |].
    by apply maybeSpawn_grows in Hs.
  - destruct Hc as (_ & pre & v & post & Hw & _ & _ & Hs).
    eapply grows_trans; [by apply claimVespene_grows |].
    by apply maybeSpawn_grows in Hs.
  - destruct Hc as (-> & _). apply grows_refl.
Qed.

End Discovery.

(** ** The scan loop *)

Lemma evolves_unoccupied (w w' : world) (i : Z) :
  evolves w w' -> unoccupied w' i -> unoccupied w i.
Proof.
  intros E Hu. unfold unoccupied in *.
  pose proof (aget_Some_range _ _ _ Hu) as Hr.
  rewrite (ev_gridlen _ _ E) in Hr.
  destruct (aget_in_range (creepGrid w) i Hr) as [v Hv].
  destruct (decide (v = 0)) as [-> | Hne]; [done |].
  assert (Ho : occupied w i).
  { unfold occupied. rewrite Hv. simpl. by apply negb_true_iff, Z.eqb_neq. }
  apply (ev_grid _ _ E) in Ho. unfold occupied in Ho. by rewrite Hu in Ho.
Qed.

Lemma evolves_enclosed (w w' : world) (k : Z) :
  evolves w w' -> enclosed w k -> enclosed w' k.
Proof.
  intros E He x y nx ny Hin Hk Ha Hn Hu.
  unfold inWorld, cellIndex in *.
  rewrite (ev_cols _ _ E), ?(ev_rows _ _ E) in *.
  apply (He x y nx ny); try done.
  apply (evolves_unoccupied w w'); [done |]. exact Hu.
Qed.

Lemma rollRaw_evolves (b : Q) (w w' : world) (e : event) :
  evolves w w' -> rollRaw b w' e -> rollRaw b w e.
Proof.
  intros E. destruct e as [| nidx dx dy res live sc draw]; [done |].
  simpl. by rewrite (ev_type _ _ E), (ev_height _ _ E), (ev_corner _ _ E),
    (ev_noise _ _ E), (ev_cols _ _ E), (ev_rows _ _ E).
Qed.

Lemma sgrows_refl (b : Q) (s : scan) : sgrows b s s.
Proof.
  constructor; auto.
  - apply evolves_refl.
  - intros i H1 H2. contradiction.
  - exists []. by rewrite app_nil_r.
Qed.

Lemma sgrows_trans (b : Q) (s1 s2 s3 : scan) :
  sgrows b s1 s2 -> sgrows b s2 s3 -> sgrows b s1 s3.
Proof.
  intros [E1 F1 NI1 N1 RI1 R1 T1] [E2 F2 NI2 N2 RI2 R2 T2].
  constructor; auto.
  - by apply evolves_trans with (sw s2).
  - intros i H3 H1.
    destruct (truthy (aget (creepGrid (sw s2)) i)) eqn:Hb.
    + specialize (F1 i Hb H1). apply elem_of_app in F1 as [F1 | F1].
      * apply elem_of_app. left.
        by apply (evolves_edges_incl (sw s2) (sw s3)).
      * apply elem_of_app. right. auto.
    + apply F2; [done |]. unfold occupied. congruence.
  - intros k Hk. destruct (N2 k Hk) as [Hk2 | [Ho Hr]].
    + destruct (N1 k Hk2) as [Hk1 | [Ho Hr]]; [by left |].
      right. split; [by apply (ev_grid _ _ E2) | done].
    + right. split; [done |].
      by rewrite <- (ev_cols _ _ E1), <- (ev_rows _ _ E1).
  - intros k Hk. destruct (R2 k Hk) as [Hk2 | He]; [| by right].
    destruct (R1 k Hk2) as [Hk1 | He]; [by left |].
    right. by apply (evolves_enclosed (sw s2)).
  - destruct T1 as (e1 & Ht1 & H1), T2 as (e2 & Ht2 & H2).
    exists (e1 ++ e2). rewrite Ht2, Ht1, app_assoc. split; [done |].
    apply Forall_app. split; [done |].
    eapply Forall_impl; [exact H2 |]. intros e. by apply rollRaw_evolves.
Qed.

(** A change of the world alone, with the locals of the loop kept. *)
Lemma sgrows_world (b : Q) (s : scan) (w' : world) (evs : list event) :
  grows (sw s) w' -> Forall (rollRaw b (sw s)) evs ->
  sgrows b s (mkScan w' (newEdges s) (toRemove s) (trace s ++ evs)).
Proof.
  intros [E F] Ht. constructor; simpl; auto.
  - intros i H1 H2. apply elem_of_app. left. by apply F.
  - eauto.
Qed.

Section Scan.

Variable rnd : nat -> Q.

Lemma growInto_sgrows (b : Q) (dx dy nx ny nidx : Z) (s s' : scan) :
  growInto rnd b dx dy nx ny nidx s = Some s' ->
  aget (creepGrid (sw s)) nidx = Some 0 ->
  0 <= nidx < cols (sw s) * rows (sw s) ->
  sgrows b s s'.
Proof.
  unfold growInto. intros Hg Hcell Hr.
  destruct (checkResource rnd nidx nx ny (sw s)) as [[res w1] |] eqn:Hc;
    [| discriminate].
  simpl in Hg. pose proof (checkResource_grows _ _ _ _ _ _ _ Hc) as [E F].
  assert (Hraw : rollRaw b (sw s)
            (Roll nidx dx dy res (resourceBoost w1)
               ((λ hMod : Q,
                   0.002 * b * hMod
                   * match aget (terrainType (sw s)) nidx with
                     | Some t => terrainSpreadMods t
                     | None => 0
                     end
                   * dirMod (startCorner (sw s)) dx dy
                   * match res with Some k => boost k | None => 1 end
                   * noiseMod (aget (noiseTexture1 w1) nidx))%Q
                  <$> ((λ height : Q, 1 - height * 0.5)%Q
                         <$> aget (terrainHeight (sw s)) nidx))
               (rnd (rng w1)))).
  { simpl. rewrite (ev_noise _ _ E).
    by destruct (aget (terrainHeight (sw s)) nidx). }
  revert Hraw Hg.
  generalize ((λ hMod : Q,
                 0.002 * b * hMod
                 * match aget (terrainType (sw s)) nidx with
                   | Some t => terrainSpreadMods t
                   | None => 0
                   end
                 * dirMod (startCorner (sw s)) dx dy
                 * match res with Some k => boost k | None => 1 end
                 * noiseMod (aget (noiseTexture1 w1) nidx))%Q
                <$> ((λ height : Q, 1 - height * 0.5)%Q
                       <$> aget (terrainHeight (sw s)) nidx)).
  intros chance Hraw Hg.
  assert (Hstep : sgrows b s
            (mkScan (set_rng w1 (S (rng w1))) (newEdges s) (toRemove s)
               (trace s
                  ++ [Roll nidx dx dy res (resourceBoost w1) chance
                        (rnd (rng w1))]))).
  { apply sgrows_world; [| by constructor].
    apply grows_trans with w1; [done |].
    split; [apply evolves_set_rng | intros i H1 H2; contradiction]. }
  destruct (match chance with
            | Some c => Qlt_bool (rnd (rng w1)) c
            | None => false
            end); apply Some_eq in Hg; subst s'; [| exact Hstep].
  eapply sgrows_trans; [exact Hstep |].
  assert (Hlen : Z.of_nat (length (creepGrid w1))
                 = Z.of_nat (length (creepGrid (sw s)))).
  { by rewrite (ev_gridlen _ _ E). }
  pose proof (aget_Some_range _ _ _ Hcell) as Hrange.
  constructor; simpl.
  - evolves_frame.
    + apply length_aset.
    + apply length_aset.
    + intros j. apply truthy_aset_one.
    + pose proof (ones_aset (creepGrid w1) nidx). lia.
  - intros i. unfold occupied. simpl. rewrite aget_aset.
    destruct (decide _) as [[-> _] | _]; [| contradiction].
    intros _ _. apply elem_of_app. right. apply elem_of_set_add. auto.
  - intros k Hk. apply elem_of_set_add. auto.
  - intros k Hk. apply elem_of_set_add in Hk as [-> | Hk]; [| by left].
    right. unfold occupied. simpl. rewrite aget_aset_eq by lia.
    split; [done |].
    by rewrite (ev_cols _ _ E), (ev_rows _ _ E).
  - auto.
  - auto.
  - exists []. by rewrite app_nil_r.
Qed.

Lemma foldl_checkNeighbor_None (b : Q) (x y : num) (l : list (Z * Z)) :
  foldl (checkNeighbor rnd b x y) None l = None.
Proof. induction l as [| d l IH]; [done | exact IH]. Qed.

(** One neighbour: when the flag stays false nothing happened, and the
    neighbour, if it is a cell of the grid, is not unoccupied. *)
Lemma checkNeighbor_step (b : Q) (x y : num) (d : Z * Z) (s s1 : scan)
    (has has1 : bool) :
  checkNeighbor rnd b x y (Some (s, has)) d = Some (s1, has1) ->
  sgrows b s s1
  /\ (has = true -> has1 = true)
  /\ (has1 = false ->
      s1 = s
      /\ forall xz yz, x = Fin xz -> y = Fin yz ->
           inWorld (sw s) (xz + d.1) (yz + d.2) ->
           ~ unoccupied (sw s) (cellIndex (sw s) (xz + d.1) (yz + d.2))).
Proof.
  unfold checkNeighbor. simpl.
  destruct (_ || _) eqn:Hout.
  { intros Heq. inversion Heq; subst. split; [apply sgrows_refl |].
    split; [done |]. intros _. split; [done |].
    intros xz yz -> -> [Hx Hy]. exfalso. simpl in Hout.
    rewrite !orb_true_iff, !Z.ltb_lt, !Z.leb_le in Hout. lia. }
  destruct (num_add x d.1) as [nxz | | |] eqn:Hnx;
    try (intros Heq; inversion Heq; subst; split; [apply sgrows_refl |];
         split; [done |]; intros _; split; [done |];
         intros xz yz -> ->; discriminate).
  destruct (num_add y d.2) as [nyz | | |] eqn:Hny;
    try (intros Heq; inversion Heq; subst; split; [apply sgrows_refl |];
         split; [done |]; intros _; split; [done |];
         intros xz yz -> ->; discriminate).
  simpl in Hout. rewrite !orb_false_iff, !Z.ltb_ge, !Z.leb_gt in Hout.
  assert (Hr : 0 <= nyz * cols (sw s) + nxz < cols (sw s) * rows (sw s))
    by (apply cell_index_range; lia).
  destruct (aget (creepGrid (sw s)) (nyz * cols (sw s) + nxz))
    as [v |] eqn:Hcell.
  2:{ intros Heq. inversion Heq; subst. split; [apply sgrows_refl |].
      split; [done |]. intros _. split; [done |].
      intros xz yz -> -> _. simpl in Hnx, Hny. inversion Hnx.
      inversion Hny. unfold unoccupied, cellIndex. congruence. }
  destruct (decide (v = 0)) as [-> | Hv].
  - destruct (growInto rnd b d.1 d.2 nxz nyz _ s) as [s' |] eqn:Hg;
      simpl; [| discriminate].
    intros Heq. inversion Heq; subst.
    split; [by apply growInto_sgrows in Hg |]. split; [done |]. discriminate.
  - assert (Hsame : forall T (a c : T),
               match v with 0 => a | _ => c end = c).
    { intros T a c. by destruct v. }
    rewrite Hsame. intros Heq. inversion Heq; subst.
    split; [apply sgrows_refl |]. split; [done |]. intros _. split; [done |].
    intros xz yz -> -> _. simpl in Hnx, Hny. inversion Hnx. inversion Hny.
    unfold unoccupied, cellIndex. congruence.
Qed.

Lemma checkNeighbors_sgrows (b : Q) (x y : num) (l : list (Z * Z)) :
  forall (s s' : scan) (has has' : bool),
    foldl (checkNeighbor rnd b x y) (Some (s, has)) l = Some (s', has') ->
    sgrows b s s'
    /\ (has = true -> has' = true)
    /\ (has' = false ->
        forall d xz yz, d ∈ l -> x = Fin xz -> y = Fin yz ->
          inWorld (sw s) (xz + d.1) (yz + d.2) ->
          ~ unoccupied (sw s')
              (cellIndex (sw s) (xz + d.1) (yz + d.2))).
Proof.
  induction l as [| d l IH]; intros s s' has has'; cbn [foldl].
  - intros Heq. inversion Heq; subst. split; [apply sgrows_refl |].
    split; [done |]. intros _ d xz yz Hd. by apply elem_of_nil in Hd.
  - destruct (checkNeighbor rnd b x y (Some (s, has)) d)
      as [[s1 has1] |] eqn:Hstep.
    2:{ rewrite foldl_checkNeighbor_None. discriminate. }
    intros Hrest. apply checkNeighbor_step in Hstep as (G1 & M1 & P1).
    apply IH in Hrest as (G2 & M2 & P2).
    split; [by apply sgrows_trans with s1 |]. split; [auto |].
    intros Hf d' xz yz Hd Hx Hy Hin.
    assert (Hf1 : has1 = false).
    { destruct has1; [| done]. specialize (M2 eq_refl). congruence. }
    destruct (P1 Hf1) as [-> P1'].
    apply elem_of_cons in Hd as [-> | Hd].
    + intros Hu. apply (P1' xz yz Hx Hy Hin).
      by apply (evolves_unoccupied (sw s) (sw s')); [apply G2 |].
    + by apply (P2 Hf d' xz yz).
Qed.

Lemma sgrows_visit (b : Q) (s : scan) (idx : Z) :
  sgrows b s
    (mkScan (sw s) (newEdges s) (toRemove s) (trace s ++ [Visit idx])).
Proof.
  apply sgrows_world; [apply grows_refl | by repeat constructor].
Qed.

Lemma sgrows_age (b : Q) (s : scan) (a : list Q) :
  length a = length (creepAge (sw s)) ->
  sgrows b s
    (mkScan (set_creepAge (sw s) a) (newEdges s) (toRemove s) (trace s)).
Proof.
  intros Hl. constructor; simpl; auto.
  - by apply evolves_set_creepAge.
  - intros i H1 H2. contradiction.
  - exists []. by rewrite app_nil_r.
Qed.

Lemma sgrows_remove (b : Q) (s : scan) (idx : Z) :
  enclosed (sw s) idx ->
  sgrows b s
    (mkScan (sw s) (newEdges s) (toRemove s ++ [idx]) (trace s)).
Proof.
  intros He. constructor; simpl; auto.
  - apply evolves_refl.
  - intros i H1 H2. contradiction.
  - intros k Hk. apply elem_of_app. by left.
  - intros k Hk. apply elem_of_app in Hk as [Hk | Hk]; [by left |].
    apply list_elem_of_singleton in Hk as ->. by right.
  - exists []. by rewrite app_nil_r.
Qed.

(** The eight offsets reach every in-bounds neighbour of the cell the
    index stands for. *)
Lemma enclosed_of_neighbors (w w1 : world) (idx : Z) :
  cols w1 = cols w -> rows w1 = rows w ->
  (forall d xz yz, d ∈ neighbors ->
     js_rem idx (cols w) = Fin xz -> js_floor_div idx (cols w) = Fin yz ->
     inWorld w (xz + d.1) (yz + d.2) ->
     ~ unoccupied w1 (cellIndex w (xz + d.1) (yz + d.2))) ->
  enclosed w1 idx.
Proof.
  intros Hc Hr P x y nx ny [Hx Hy] Hk Ha Hn.
  unfold cellIndex, inWorld in *. rewrite Hc in *. rewrite ?Hr in *.
  assert (Hz : cols w <> 0) by lia.
  specialize (P (nx - x, ny - y) x y Ha). simpl in P.
  replace (x + (nx - x)) with nx in P by lia.
  replace (y + (ny - y)) with ny in P by lia.
  apply P; [| | done].
  - unfold js_rem. destruct (Z.eqb_spec (cols w) 0); [lia |].
    f_equal. rewrite Z.rem_mod_nonneg by nia.
    symmetry. apply (Z.mod_unique_pos _ _ y); lia.
  - unfold js_floor_div. destruct (Z.eqb_spec (cols w) 0); [lia |].
    f_equal. symmetry. apply (Z.div_unique_pos _ _ y x); lia.
Qed.

Lemma visitEdge_sgrows (b : Q) (idx : Z) (s s' : scan) :
  visitEdge rnd b idx s = Some s' -> sgrows b s s'.
Proof.
  unfold visitEdge.
  destruct (foldl _ _ _) as [[s1 has] |] eqn:Hfold; [| discriminate].
  intros Heq%Some_eq. subst s'.
  apply (checkNeighbors_sgrows b _ _ neighbors _ s1 false has) in Hfold
    as (G & _ & P).
  simpl in P.
  eapply sgrows_trans; [apply (sgrows_visit b s idx) |].
  eapply sgrows_trans; [exact G |].
  assert (He : has = false -> enclosed (sw s1) idx).
  { intros Hf. apply (enclosed_of_neighbors (sw s)).
    - apply (ev_cols _ _ (sg_evolves _ _ _ G)).
    - apply (ev_rows _ _ (sg_evolves _ _ _ G)).
    - intros d xz yz. apply (P Hf). }
  clear G P.
  destruct (aget (creepAge (sw s1)) idx) as [a |]; destruct has.
  - apply sgrows_age, length_aset.
  - eapply sgrows_trans; [apply sgrows_remove, He; reflexivity |].
    apply (sgrows_age b
             (mkScan (sw s1) (newEdges s1) (toRemove s1 ++ [idx])
                (trace s1))), length_aset.
  - destruct s1. apply sgrows_refl.
  - by apply sgrows_remove, He.
Qed.

Lemma scanEdges_sgrows (b : Q) (fuel : nat) :
  forall (pos : nat) (s s' : scan),
    scanEdges rnd fuel b pos s = Some s' -> sgrows b s s'.
Proof.
  induction fuel as [| fuel IH]; intros pos s s'; simpl.
  - destruct (activeEdges (sw s) !! pos); [discriminate |].
    intros [= <-]. apply sgrows_refl.
  - destruct (activeEdges (sw s) !! pos) as [idx |].
    2:{ intros [= <-]. apply sgrows_refl. }
    destruct (visitEdge rnd b idx s) as [s1 |] eqn:Hv; [| discriminate].
    simpl. intros Hrest. apply visitEdge_sgrows in Hv. apply IH in Hrest.
    by apply sgrows_trans with s1.
Qed.

End Scan.

(** ** The step returns *)

Lemma Qfloor_pick (r : Q) (n : Z) :
  (0 <= r)%Q -> (r < 1)%Q -> 0 < n -> 0 <= Qfloor (r * inject_Z n) < n.
Proof.
  intros H0 H1 Hn.
  assert (Hn' : (0 < inject_Z n)%Q).
  { change 0%Q with (inject_Z 0). by rewrite <- Zlt_Qlt. }
  split.
  - change 0 with (Qfloor 0). apply Qfloor_resp_le.
    apply Qmult_le_0_compat; [done | by apply Qlt_le_weak].
  - rewrite Zlt_Qlt.
    apply Qle_lt_trans with (r * inject_Z n)%Q; [apply Qfloor_le |].
    rewrite <- (Qmult_1_l (inject_Z n)) at 2.
    by apply Qmult_lt_r.
Qed.

Lemma evolves_edges_length (w0 w : world) :
  evolves w0 w ->
  (length (activeEdges w)
   <= length (activeEdges w0) + Z.to_nat (cols w0 * rows w0))%nat.
Proof.
  intros E. destruct (ev_edges _ _ E) as (added & -> & Hnd & Hr).
  rewrite length_app. apply Nat.add_le_mono_l.
  rewrite <- (length_zseq 0 (Z.to_nat (cols w0 * rows w0))).
  apply submseteq_length, NoDup_submseteq; [done |].
  intros k Hk. apply elem_of_zseq. apply Hr in Hk. lia.
Qed.

Section Totality.

Variable rnd : nat -> Q.

Hypothesis rnd_range : forall i, (0 <= rnd i)%Q /\ (rnd i < 1)%Q.

Lemma maybeSpawn_total (tileX tileY : Z) (w : world) :
  exists w', maybeSpawnHatcheryNear rnd tileX tileY w = Some w'.
Proof.
  unfold maybeSpawnHatcheryNear, random.
  destruct (_ || _); [eauto |].
  destruct (Qlt_bool _ _); [eauto |].
  destruct (length _ =? 0)%nat eqn:Hlen; [eauto |].
  apply Nat.eqb_neq in Hlen.
  match goal with
  | |- context [aget ?c ?i] =>
      destruct (aget_in_range c i) as [chosen ->]; [| eauto]
  end.
  destruct (rnd_range (rng (set_rng w (S (rng w))))) as [H0 H1].
  apply Qfloor_pick; [done | done | lia].
Qed.

Lemma checkResource_total (idx x y : Z) (w : world) :
  exists r, checkResource rnd idx x y w = Some r.
Proof.
  unfold checkResource.
  destruct (discover 25 x y (minerals w)) as [[m ms] |].
  - destruct (maybeSpawn_total (d_x m) (d_y m) (claimMineral w ms m))
      as [w' ->].
    simpl. eauto.
  - destruct (discover 36 x y (vespene w)) as [[v vs] |]; [| eauto].
    destruct (maybeSpawn_total (d_x v) (d_y v) (claimVespene w vs v))
      as [w' ->].
    simpl. eauto.
Qed.

Lemma growInto_total (b : Q) (dx dy nx ny nidx : Z) (s : scan) :
  exists s', growInto rnd b dx dy nx ny nidx s = Some s'.
Proof.
  unfold growInto.
  destruct (checkResource_total nidx nx ny (sw s)) as [[res w1] ->].
  simpl. destruct (match _ with Some c => _ | None => false end); eauto.
Qed.

Lemma checkNeighbor_total (b : Q) (x y : num) (d : Z * Z) (s : scan)
    (has : bool) :
  exists r, checkNeighbor rnd b x y (Some (s, has)) d = Some r.
Proof.
  unfold checkNeighbor. simpl.
  destruct (_ || _); [eauto |].
  destruct (num_add x d.1); [| eauto | eauto | eauto].
  destruct (num_add y d.2); [| eauto | eauto | eauto].
  destruct (aget (creepGrid (sw s)) _) as [v |]; [| eauto].
  destruct (decide (v = 0)) as [-> | Hv].
  - match goal with
    | |- context [growInto rnd b ?a1 ?a2 ?a3 ?a4 ?a5 s] =>
        destruct (growInto_total b a1 a2 a3 a4 a5 s) as [s' ->]
    end.
    simpl. eauto.
  - destruct v; [done | eauto | eauto].
Qed.

Lemma checkNeighbors_total (b : Q) (x y : num) (l : list (Z * Z)) :
  forall (s : scan) (has : bool),
  exists r, foldl (checkNeighbor rnd b x y) (Some (s, has)) l = Some r.
Proof.
  induction l as [| d l IH]; intros s has; cbn [foldl]; [eauto |].
  destruct (checkNeighbor_total b x y d s has) as [[s1 has1] ->].
  apply IH.
Qed.

Lemma visitEdge_total (b : Q) (idx : Z) (s : scan) :
  exists s', visitEdge rnd b idx s = Some s'.
Proof.
  unfold visitEdge.
  match goal with
  | |- context [foldl ?f (Some (?s0, ?h)) ?l] =>
      destruct (checkNeighbors_total b (js_rem idx (cols (sw s)))
                  (js_floor_div idx (cols (sw s))) l s0 h) as [[s1 has] ->]
  end.
  eauto.
Qed.

Lemma scanEdges_total (b : Q) (w0 : world) (fuel : nat) :
  forall (pos : nat) (s : scan),
    evolves w0 (sw s) ->
    (length (activeEdges w0) + Z.to_nat (cols w0 * rows w0)
     <= fuel + pos)%nat ->
    exists s', scanEdges rnd fuel b pos s = Some s'.
Proof.
  induction fuel as [| fuel IH]; intros pos s E Hf; simpl.
  - destruct (activeEdges (sw s) !! pos) as [idx |] eqn:Hl; [| eauto].
    apply lookup_lt_Some in Hl.
    pose proof (evolves_edges_length _ _ E). lia.
  - destruct (activeEdges (sw s) !! pos) as [idx |] eqn:Hl; [| eauto].
    destruct (visitEdge_total b idx s) as [s1 Hv]. rewrite Hv. simpl.
    apply IH; [| lia].
    apply evolves_trans with (sw s); [done |].
    apply (sg_evolves b). by apply visitEdge_sgrows in Hv.
Qed.

Lemma spreadCreepTrace_total (w : world) :
  exists s, spreadCreepTrace rnd w = Some s.
Proof.
  unfold spreadCreepTrace. destruct (isSaturated w); [eauto |].
  destruct (scanEdges_total (resourceBoost w) w (scanFuel w) 0
              (mkScan w [] [] [])) as [s ->].
  - apply evolves_refl.
  - unfold scanFuel. lia.
  - simpl. eauto.
Qed.

Lemma spreadCreep_total (w : world) :
  exists w', spreadCreep rnd w = Some w'.
Proof.
  unfold spreadCreep. destruct (spreadCreepTrace_total w) as [s ->].
  simpl. eauto.
Qed.

End Totality.

(** ** One step *)

Lemma elem_of_deletes (k : Z) (r e : list Z) :
  k ∈ foldl (λ e idx, set_delete idx e) e r <-> k ∈ e /\ k ∉ r.
Proof.
  revert e. induction r as [| i r IH]; intros e; cbn [foldl].
  - split; [intros H; split; [done | apply not_elem_of_nil] | tauto].
  - rewrite IH, elem_of_set_delete, not_elem_of_cons. tauto.
Qed.

Lemma elem_of_adds (k : Z) (n e : list Z) :
  k ∈ foldl (λ e idx, set_add idx e) e n <-> k ∈ e \/ k ∈ n.
Proof.
  revert e. induction n as [| i n IH]; intros e; cbn [foldl].
  - rewrite elem_of_nil. tauto.
  - rewrite IH, elem_of_set_add, elem_of_cons. tauto.
Qed.

Lemma elem_of_settleEdges (k : Z) (e r n : list Z) :
  k ∈ settleEdges e r n <-> k ∈ n \/ (k ∈ e /\ k ∉ r).
Proof. unfold settleEdges. rewrite elem_of_adds, elem_of_deletes. tauto. Qed.

(** The end of the step touches the frontier set and the flag only. *)
Lemma finishStep_frame (s : scan) :
  let w := sw s in
  let w' := finishStep s in
  cols w' = cols w /\ rows w' = rows w /\ creepGrid w' = creepGrid w
  /\ creepAge w' = creepAge w /\ terrainHeight w' = terrainHeight w
  /\ terrainType w' = terrainType w /\ minerals w' = minerals w
  /\ vespene w' = vespene w /\ buildings w' = buildings w
  /\ startCorner w' = startCorner w /\ noiseTexture1 w' = noiseTexture1 w
  /\ totalVisibleCells w' = totalVisibleCells w
  /\ creepCount w' = creepCount w /\ resourceBoost w' = resourceBoost w
  /\ mineralsGathered w' = mineralsGathered w
  /\ vespeneGathered w' = vespeneGathered w /\ rng w' = rng w
  /\ activeEdges w'
     = settleEdges (activeEdges w) (toRemove s) (newEdges s).
Proof.
  unfold finishStep, checkSaturation. simpl.
  destruct (Qle_bool _ _); simpl; repeat split.
Qed.

Lemma finishStep_saturated (s : scan) :
  reaches98 (creepCount (finishStep s)) (finishStep s) ->
  isSaturated (finishStep s) = true.
Proof.
  unfold reaches98, finishStep, checkSaturation. simpl.
  destruct (Qle_bool _ _) eqn:Hq; simpl; [done |].
  intros Hle. apply Qle_bool_iff in Hle. congruence.
Qed.

Lemma finishStep_flag (s : scan) :
  isSaturated (finishStep s) = true ->
  isSaturated (sw s) = true
  \/ reaches98 (creepCount (finishStep s)) (finishStep s).
Proof.
  unfold reaches98, finishStep, checkSaturation. simpl.
  destruct (Qle_bool _ _) eqn:Hq; simpl; [| by left].
  intros _. right. by apply Qle_bool_iff.
Qed.

Section Step.

Variable rnd : nat -> Q.

Lemma spreadCreepTrace_saturated (w : world) :
  isSaturated w = true -> spreadCreepTrace rnd w = Some (mkScan w [] [] []).
Proof. intros Hs. unfold spreadCreepTrace. by rewrite Hs. Qed.

Lemma spreadCreepTrace_growing (w : world) (s : scan) :
  isSaturated w = false -> spreadCreepTrace rnd w = Some s ->
  exists s1,
    scanEdges rnd (scanFuel w) (resourceBoost w) 0 (mkScan w [] [] [])
    = Some s1
    /\ sgrows (resourceBoost w) (mkScan w [] [] []) s1
    /\ s = mkScan (finishStep s1) (newEdges s1) (toRemove s1) (trace s1).
Proof.
  intros Hs. unfold spreadCreepTrace. rewrite Hs.
  destruct (scanEdges _ _ _ _ _) as [s1 |] eqn:Hscan; [| discriminate].
  simpl. intros Heq%Some_eq. exists s1. split; [done |].
  split; [by apply scanEdges_sgrows in Hscan | done].
Qed.

Lemma spreadCreep_cases (w w' : world) :
  spreadCreep rnd w = Some w' ->
  (isSaturated w = true /\ w' = w)
  \/ (isSaturated w = false
      /\ exists s1,
           sgrows (resourceBoost w) (mkScan w [] [] []) s1
           /\ w' = finishStep s1).
Proof.
  unfold spreadCreep.
  destruct (spreadCreepTrace rnd w) as [s |] eqn:Ht; [| discriminate].
  simpl. intros Heq%Some_eq. subst w'.
  destruct (isSaturated w) eqn:Hs.
  - left. rewrite spreadCreepTrace_saturated in Ht by done.
    apply Some_eq in Ht. by subst s.
  - right. split; [done |].
    apply spreadCreepTrace_growing in Ht as (s1 & _ & G & ->); [| done].
    by exists s1.
Qed.

(** The invariant of the cycle is kept by the step. *)
Lemma spreadCreep_cycleInv (w w' : world) :
  cycleInv w -> spreadCreep rnd w = Some w' -> cycleInv w'.
Proof.
  intros Inv Hstep.
  apply spreadCreep_cases in Hstep as [[_ ->] | (_ & s1 & G & ->)];
    [done |].
  destruct G as [E F _ N _ R _]. simpl in *.
  destruct Inv as [[Hc Hr Ht Hg Ha Hh Hy Hn Hty] Hm Hcomp Hcnt Hb HgM HgV].
  destruct (finishStep_frame s1)
    as (Fc & Fr & Fg & Fa & Fh & Fty & _ & _ & _ & _ & Fn & Ft & Fcc & Frb
        & FgM & FgV & _ & Fe).
  pose proof (ev_cols _ _ E) as Ec. pose proof (ev_rows _ _ E) as Er.
  rewrite Ec in Fc. rewrite Er in Fr.
  constructor.
  - constructor; rewrite ?Fc, ?Fr, ?Fg, ?Fa, ?Fh, ?Fty, ?Fn, ?Ft.
    + done.
    + done.
    + by rewrite (ev_total _ _ E).
    + by rewrite (ev_gridlen _ _ E).
    + by rewrite (ev_agelen _ _ E).
    + by rewrite (ev_height _ _ E).
    + by rewrite (ev_type _ _ E).
    + by rewrite (ev_noise _ _ E).
    + by rewrite (ev_type _ _ E).
  - intros k Hk. rewrite Fe in Hk.
    unfold inWorld, cellIndex, occupied. rewrite Fc, Fr, Fg.
    assert (Hcell : 0 <= k < cols w * rows w -> occupied (sw s1) k ->
              exists x y, (0 <= x < cols w /\ 0 <= y < rows w)
                          /\ k = y * cols w + x
                          /\ truthy (aget (creepGrid (sw s1)) k) = true).
    { intros Hrange Ho.
      destruct (cell_of_index (cols w) (rows w) k Hc Hrange)
        as (Hx & Hy' & Hk').
      exists (Z.rem k (cols w)), (k / cols w). auto. }
    apply elem_of_settleEdges in Hk as [Hk | [Hk _]].
    + destruct (N k Hk) as [Hnil | [Ho Hrange]];
        [by apply elem_of_nil in Hnil | auto].
    + destruct (ev_edges _ _ E) as (added & He & _ & Hadd).
      rewrite He in Hk. apply elem_of_app in Hk as [Hk | Hk].
      * destruct (Hm k Hk) as (x & y & Hin & Hidx & Ho).
        exists x, y. split; [done |]. split; [done |].
        by apply (ev_grid _ _ E).
      * destruct (Hadd k Hk) as [Hnot Hrange]. apply Hcell; [done |].
        destruct (ev_members _ _ E Hg k) as [Hold | Ho]; [| done | done].
        rewrite He. apply elem_of_app. by right.
  - intros x y Hin Ho (nx & ny & Hadj & Hnin & Hu).
    unfold inWorld, cellIndex, occupied, unoccupied in Hin, Ho, Hnin, Hu.
    unfold cellIndex.
    rewrite Fc in Hin, Ho, Hnin, Hu |- *. rewrite Fr in Hin, Hnin.
    rewrite Fg in Ho, Hu. rewrite Fe.
    apply elem_of_settleEdges.
    assert (Hu0 : unoccupied w (ny * cols w + nx))
      by (by apply (evolves_unoccupied w (sw s1))).
    assert (Hinside : forall k, k = y * cols w + x ->
              k ∈ toRemove s1 -> False).
    { intros k -> Hrem. destruct (R _ Hrem) as [Hnil | Henc];
        [by apply elem_of_nil in Hnil |].
      apply (Henc x y nx ny); unfold inWorld, cellIndex;
        rewrite ?Ec, ?Er; done. }
    destruct (truthy (aget (creepGrid w) (y * cols w + x))) eqn:Ho0.
    + right.
      assert (Hk : y * cols w + x ∈ activeEdges w).
      { apply (Hcomp x y); [done | done |]. by exists nx, ny. }
      split; [by apply (evolves_edges_incl w (sw s1)) |].
      intros Hrem. by apply (Hinside _ eq_refl).
    + assert (Hfresh : y * cols w + x ∈ activeEdges (sw s1) ++ newEdges s1).
      { apply F; [done |]. unfold occupied. congruence. }
      apply elem_of_app in Hfresh as [Hk | Hk]; [| by left].
      right. split; [done |].
      intros Hrem. by apply (Hinside _ eq_refl).
  - unfold occupiedCells in *. rewrite Fg, Fcc.
    pose proof (ev_count _ _ E) as Hcount. unfold occupiedCells in Hcount.
    lia.
  - rewrite Frb. destruct Hb as [H1 H3].
    destruct (ev_boost _ _ E H3) as [Hle H3']. split; [| done].
    by apply Qle_trans with (resourceBoost w).
  - rewrite FgM. by apply (ev_gatheredM _ _ E).
  - rewrite FgV. by apply (ev_gatheredV _ _ E).
Qed.

Lemma steps_cycleInv (n : nat) :
  forall w w', cycleInv w -> steps rnd n w = Some w' -> cycleInv w'.
Proof.
  induction n as [| n IH]; intros w w' Inv; simpl.
  - by intros [= <-].
  - destruct (spreadCreep rnd w) as [w1 |] eqn:Hs; [| discriminate].
    simpl. apply IH. by apply (spreadCreep_cycleInv w).
Qed.

End Step.

(** ** World generation *)

Lemma truthy_replicate (n : nat) (i : Z) :
  truthy (aget (replicate n 0) i) = false.
Proof.
  unfold aget. destruct (i <? 0); [done |].
  destruct (replicate n 0 !! Z.to_nat i) as [v |] eqn:Hl; [| done].
  apply lookup_replicate in Hl as [-> _]. done.
Qed.

Lemma ones_replicate (n : nat) :
  filter (λ v : Z, v = 1) (replicate n 0) = [].
Proof.
  induction n as [| n IH]; [done |]. simpl. rewrite filter_cons.
  by rewrite decide_False.
Qed.

Lemma margin_range (cols : Z) :
  0 <= cols -> 0 <= Qfloor (inject_Z cols * 0.1) <= cols.
Proof.
  intros Hc.
  assert (H0 : (0 <= inject_Z cols)%Q).
  { change 0%Q with (inject_Z 0). by rewrite <- Zle_Qle. }
  split.
  - change 0 with (Qfloor 0). apply Qfloor_resp_le.
    apply Qmult_le_0_compat; [done | discriminate].
  - rewrite <- (Qfloor_Z cols) at 2. apply Qfloor_resp_le.
    rewrite <- (Qmult_1_l (inject_Z cols)) at 2.
    rewrite (Qmult_comm (inject_Z cols) 0.1).
    apply Qmult_le_compat_r; [discriminate | done].
Qed.

Section GenerationFacts.

Variables (sin sqrt : Q -> Q) (rnd : nat -> Q).

Lemma foldl_keeps_length {A B : Type} (f : list A -> B -> list A)
    (l : list B) (a : list A) :
  (forall t c, length (f t c) = length t) ->
  length (foldl f a l) = length a.
Proof.
  intros Hf. revert a. induction l as [| c l IH]; intros a; cbn [foldl];
    [done |].
  by rewrite IH, Hf.
Qed.

Lemma smooth_length (cols rows : Z) (h : list Q) :
  length (smooth cols rows h) = Z.to_nat (cols * rows).
Proof.
  unfold smooth. rewrite foldl_keeps_length; [apply length_replicate |].
  intros t c. apply length_aset.
Qed.

Lemma generateTerrain_height (cols rows : Z) :
  length (generateTerrain sin sqrt rnd cols rows).1.1
  = Z.to_nat (cols * rows).
Proof.
  unfold generateTerrain.
  destruct (Nat.iter _ _ _) as [waterMask n1]. simpl.
  apply smooth_length.
Qed.

Lemma generateNoiseTexture_length (scale seed : Q) (cols rows : Z) :
  length (generateNoiseTexture sin scale seed cols rows)
  = Z.to_nat (cols * rows).
Proof.
  unfold generateNoiseTexture, upto. by rewrite length_fmap, length_zseq.
Qed.

(** The fields of a generated world. *)
Lemma initGrid_eq (width height : N) :
  let cols := cellsAcross width in
  let rows := cellsAcross height in
  exists th ew n1 mi ve n3,
    generateTerrain sin sqrt rnd cols rows = (th, ew, n1)
    /\ initGrid sin sqrt rnd width height
       = let tt := classifyTerrain cols rows th ew in
         let sc := pickCorner cols rows (Qfloor (rnd n1 * 4)) in
         let seed := seedCell cols rows tt sc in
         let seedIdx := seed.2 * cols + seed.1 in
         mkWorld cols rows
           (aset (replicate (Z.to_nat (cols * rows)) 0) seedIdx 1)
           (aset (replicate (Z.to_nat (cols * rows)) 0%Q) seedIdx 50%Q)
           th tt mi ve [mkBuilding seed.1 seed.2 hatchery 0] sc
           (generateNoiseTexture sin 0.3 0 cols rows) (cols * rows) false
           (0 + 1) 1 0 0 (set_add seedIdx []) n3.
Proof.
  intros cols rows. unfold initGrid. fold cols rows.
  destruct (generateTerrain sin sqrt rnd cols rows) as [[th ew] n1].
  destruct (spawnDeposits rnd _ 2 3 _ _ _ _ _) as [mi n2].
  destruct (spawnDeposits rnd _ 3 2 _ _ _ _ _) as [ve n3].
  by exists th, ew, n1, mi, ve, n3.
Qed.

Lemma cellsAcross_nonneg (pixels : N) : 0 <= cellsAcross pixels.
Proof.
  unfold cellsAcross, cellSize. apply Z.div_pos; lia.
Qed.

Lemma pickCorner_inside (cols rows choice : Z) :
  0 < cols -> 0 < rows ->
  0 <= c_x (pickCorner cols rows choice) < cols
  /\ 0 <= c_y (pickCorner cols rows choice) < rows.
Proof.
  intros Hc Hr. unfold pickCorner.
  destruct choice as [| p | p]; simpl; try lia.
  destruct p as [p | p |]; simpl; try lia;
    destruct p as [p | p |]; simpl; lia.
Qed.

Lemma findSeed_Some (cols : Z) (tt : list Z) (rangeX rangeY : Z * Z)
    (c : Z * Z) :
  findSeed cols tt rangeX rangeY = Some c ->
  walkable (aget tt (c.2 * cols + c.1)) = true
  /\ rangeX.1 <= c.1 < rangeX.1 + Z.of_nat (Z.to_nat (rangeX.2 - rangeX.1)).
Proof.
  unfold findSeed. intros Hh. apply head_Some_elem_of in Hh.
  apply list_elem_of_filter in Hh as [Hw Hin].
  split; [by destruct (walkable _) |].
  apply list_elem_of_bind in Hin as (sy & Hin & _).
  apply list_elem_of_bind in Hin as (sx & Hin & Hsx).
  apply list_elem_of_singleton in Hin. subst c. simpl.
  by apply elem_of_zseq in Hsx.
Qed.

Lemma seedCell_inside (cols rows : Z) (tt : list Z) (sc : corner) :
  0 < cols -> 0 < rows -> Z.of_nat (length tt) = cols * rows ->
  0 <= c_x sc < cols -> 0 <= c_y sc < rows ->
  0 <= (seedCell cols rows tt sc).1 < cols
  /\ 0 <= (seedCell cols rows tt sc).2 < rows.
Proof.
  intros Hc Hr Hl Hx Hy. unfold seedCell.
  destruct (findSeed _ _ _ _) as [c |] eqn:Hf; simpl; [| done].
  apply findSeed_Some in Hf as [Hw Hrange].
  pose proof (margin_range cols ltac:(lia)) as Hm.
  assert (Hcx : 0 <= c.1 < cols).
  { revert Hm Hrange. generalize (Qfloor (inject_Z cols * 0.1)).
    intros m Hm Hrange.
    destruct (dirX sc =? 1); cbn [fst snd] in Hrange; lia. }
  split; [done |].
  destruct (aget tt (c.2 * cols + c.1)) as [t |] eqn:Ht; [| done].
  apply aget_Some_range in Ht. rewrite Hl in Ht. nia.
Qed.

Lemma classifyTerrain_types (cols rows : Z) (th : list Q) (ew : list Z)
    (t : Z) :
  0 < cols -> 0 < rows -> Z.of_nat (length th) = cols * rows ->
  t ∈ classifyTerrain cols rows th ew -> exists T, t = typeCode T.
Proof.
  intros Hc Hr Hl Hin. apply list_elem_of_lookup_1 in Hin as [i Hi].
  pose proof (lookup_lt_Some _ _ _ Hi) as Hlt.
  pose proof (classifyTerrain_length cols rows th ew) as Hlen.
  destruct (cell_of_index cols rows (Z.of_nat i) Hc ltac:(lia))
    as (Hx & Hy & Hk).
  pose proof (classifyTerrain_lookup cols rows th Hl ew _ _ Hx Hy) as Hget.
  rewrite <- Hk in Hget. unfold aget in Hget.
  destruct (Z.ltb_spec (Z.of_nat i) 0); [lia |].
  rewrite Nat2Z.id, Hi in Hget. inversion Hget. eauto.
Qed.

Ltac fields :=
  cbn [cols rows creepGrid creepAge terrainHeight terrainType minerals
       vespene buildings startCorner noiseTexture1 totalVisibleCells
       isSaturated creepCount resourceBoost mineralsGathered
       vespeneGathered activeEdges rng].

(** World generation establishes the invariant of the cycle. *)
Lemma initGrid_cycleInv (width height : N) :
  0 < cellsAcross width -> 0 < cellsAcross height ->
  cycleInv (initGrid sin sqrt rnd width height).
Proof.
  intros Hc Hr.
  destruct (initGrid_eq width height)
    as (th & ew & n1 & mi & ve & n3 & Hgen & ->).
  pose proof (generateTerrain_height (cellsAcross width)
                (cellsAcross height)) as Hth.
  rewrite Hgen in Hth. cbn [fst] in Hth.
  revert Hc Hr Hth.
  generalize (cellsAcross width) as cols.
  generalize (cellsAcross height) as rows.
  intros rows cols Hc Hr Hth. cbv zeta.
  assert (Hsize : 0 <= cols * rows) by nia.
  assert (Hth' : Z.of_nat (length th) = cols * rows) by lia.
  pose proof (classifyTerrain_length cols rows th ew) as Htt.
  rewrite Z.max_r in Htt by done.
  destruct (pickCorner_inside cols rows (Qfloor (rnd n1 * 4)) Hc Hr)
    as [Hcx Hcy].
  destruct (seedCell_inside cols rows (classifyTerrain cols rows th ew)
              (pickCorner cols rows (Qfloor (rnd n1 * 4))) Hc Hr Htt Hcx Hcy)
    as [Hsx Hsy].
  revert Hsx Hsy.
  generalize (seedCell cols rows (classifyTerrain cols rows th ew)
                (pickCorner cols rows (Qfloor (rnd n1 * 4)))).
  intros seed Hsx Hsy.
  pose proof (cell_index_range cols rows _ _ Hsx Hsy) as Hidx.
  assert (Hocc : forall j,
             truthy (aget (aset (replicate (Z.to_nat (cols * rows)) 0)
                             (seed.2 * cols + seed.1) 1) j) = true ->
             j = seed.2 * cols + seed.1).
  { intros j. rewrite aget_aset.
    destruct (decide _) as [[-> _] | _]; [done |].
    by rewrite truthy_replicate. }
  constructor; fields.
  - constructor; fields; try done.
    + rewrite length_aset, length_replicate. lia.
    + rewrite length_aset, length_replicate. lia.
    + rewrite generateNoiseTexture_length. lia.
    + intros t. by apply classifyTerrain_types.
  - intros k Hk. apply elem_of_set_add in Hk as [-> | Hk];
      [| by apply elem_of_nil in Hk].
    exists seed.1, seed.2. unfold inWorld, cellIndex, occupied. fields.
    split; [done |]. split; [done |].
    rewrite aget_aset_eq; [done |]. rewrite length_replicate. lia.
  - intros x y _ Ho _. unfold occupied, cellIndex in *. fields.
    revert Ho. fields. intros Ho. apply Hocc in Ho. rewrite Ho.
    apply elem_of_set_add. by left.
  - unfold occupiedCells. fields.
    pose proof (ones_aset (replicate (Z.to_nat (cols * rows)) 0)
                  (seed.2 * cols + seed.1)) as Hones.
    rewrite ones_replicate in Hones. simpl in Hones. lia.
  - split; discriminate.
  - done.
  - done.
Qed.

End GenerationFacts.


(** * The claims *)

(** The sample worlds are what [initGrid] returns. *)

Lemma twoCells_generated : initGrid flat flat zeros 16 8 = twoCells.
Proof. vm_compute. reflexivity. Qed.

Lemma fourCells_generated : initGrid flat flat lucky 16 16 = fourCells.
Proof. vm_compute. reflexivity. Qed.

Lemma noCells_generated : initGrid flat flat zeros 0 0 = noCells.
Proof. vm_compute. reflexivity. Qed.

(** C9. After terrain generation every cell of the grid holds one of the
    five terrain types, assigned as the specification says: a cell of the
    expanded water mask is Water; otherwise a cell whose largest absolute
    height difference to its in-grid 4-neighbours exceeds 0.08 is
    CliffWall; otherwise height < 0.32 gives LowGround, height < 0.6
    MidGround, anything else HighPlateau.  In particular a Water cell is
    never reclassified as CliffWall. *)
Theorem terrain_classification (sin sqrt : Q -> Q) (rnd : nat -> Q)
    (width height : N) (x y : Z) :
  let w := initGrid sin sqrt rnd width height in
  let expandedWater := (generateTerrain sin sqrt rnd (cols w) (rows w)).1.2 in
  let water := waterOf (cols w) expandedWater in
  inWorld w x y ->
  aget (terrainType w) (cellIndex w x y)
  = Some (typeCode
            (specTerrain (heightOf (cols w) (terrainHeight w)) water
               (cols w) (rows w) x y))
  /\ (water x y = true ->
      aget (terrainType w) (cellIndex w x y) = Some (typeCode Water)).
Proof.
  destruct (initGrid_eq sin sqrt rnd width height)
    as (th & ew & n1 & mi & ve & n3 & Hgen & ->).
  pose proof (generateTerrain_height sin sqrt rnd (cellsAcross width)
                (cellsAcross height)) as Hth.
  cbv zeta. unfold inWorld, cellIndex.
  cbn [cols rows terrainType terrainHeight].
  rewrite Hgen in Hth |- *. cbn [fst snd] in Hth |- *.
  intros [Hx Hy].
  assert (Hsize : 0 <= cellsAcross width * cellsAcross height) by nia.
  assert (Hl : Z.of_nat (length th) = cellsAcross width * cellsAcross height)
    by lia.
  pose proof (classifyTerrain_lookup _ _ th Hl ew x y Hx Hy) as Hget.
  split; [exact Hget |].
  intros Hw. rewrite Hget. unfold specTerrain. by rewrite Hw.
Qed.

Lemma terrain_classification_witness :
  inWorld twoCells 1 0
  /\ aget (terrainType twoCells) (cellIndex twoCells 1 0)
     = Some (typeCode
               (specTerrain (heightOf (cols twoCells) (terrainHeight twoCells))
                  (waterOf (cols twoCells)
                     (generateTerrain flat flat zeros (cols twoCells)
                        (rows twoCells)).1.2)
                  (cols twoCells) (rows twoCells) 1 0)).
Proof.
  assert (Hin : inWorld twoCells 1 0)
    by (vm_compute; repeat split; discriminate).
  split; [exact Hin |].
  pose proof (terrain_classification flat flat zeros 16 8 1 0) as H.
  cbv zeta in H. rewrite twoCells_generated in H.
  exact (proj1 (H Hin)).
Defined.

(** ** Resources along a cycle *)

Lemma sustains_refl (w : world) : sustains w w.
Proof.
  constructor; try done; try apply depositsKept_refl.
  intros H. split; [apply Qle_refl | done].
Qed.

Lemma sustains_trans (a b c : world) :
  sustains a b -> sustains b c -> sustains a c.
Proof.
  intros [B1 M1 V1 Mi1 Ve1] [B2 M2 V2 Mi2 Ve2]. constructor; auto.
  - intros H. destruct (B1 H) as [H1 H2]. destruct (B2 H2) as [H3 H4].
    split; [| done]. by apply Qle_trans with (resourceBoost b).
  - by apply depositsKept_trans with (minerals b).
  - by apply depositsKept_trans with (vespene b).
Qed.

Lemma evolves_sustains (w w' : world) : evolves w w' -> sustains w w'.
Proof. intros []. by constructor. Qed.

Lemma spreadCreep_sustains (rnd : nat -> Q) (w w' : world) :
  spreadCreep rnd w = Some w' -> sustains w w'.
Proof.
  intros Hstep.
  apply spreadCreep_cases in Hstep as [[_ ->] | (_ & s1 & G & ->)];
    [apply sustains_refl |].
  destruct G as [E _ _ _ _ _ _]. simpl in E.
  apply evolves_sustains in E. destruct E as [B M V Mi Ve].
  destruct (finishStep_frame s1)
    as (_ & _ & _ & _ & _ & _ & Fmi & Fve & _ & _ & _ & _ & _ & Frb
        & FgM & FgV & _).
  constructor; rewrite ?Frb, ?FgM, ?FgV, ?Fmi, ?Fve; done.
Qed.

Lemma steps_sustains (rnd : nat -> Q) (n : nat) :
  forall w w', steps rnd n w = Some w' -> sustains w w'.
Proof.
  induction n as [| n IH]; intros w w'; simpl.
  - intros [= <-]. apply sustains_refl.
  - destruct (spreadCreep rnd w) as [w1 |] eqn:Hs; [| discriminate].
    simpl. intros Hrest. apply sustains_trans with w1.
    + by apply spreadCreep_sustains in Hs.
    + by apply IH.
Qed.

Lemma initGrid_resources (sin sqrt : Q -> Q) (rnd : nat -> Q)
    (width height : N) :
  let w := initGrid sin sqrt rnd width height in
  resourceBoost w = 1%Q /\ mineralsGathered w = 0 /\ vespeneGathered w = 0
  /\ isSaturated w = false /\ creepCount w = 1.
Proof.
  destruct (initGrid_eq sin sqrt rnd width height)
    as (th & ew & n1 & mi & ve & n3 & _ & ->).
  cbv zeta. by cbn [resourceBoost mineralsGathered vespeneGathered
                      isSaturated creepCount].
Qed.

(** C8. The gathered counters are never negative: in every world that a
    sequence of steps reaches from world generation both counters are at
    least 0, a call of the spawner in such a world leaves them at least 0,
    and that call ends in one of four ways: the gate is closed (fewer than
    2 minerals or fewer than 1 vespene), the 0.55 coin flip fails, there is
    no occupied walkable candidate within 4 of the tile, all three without
    a spend, or a hatchery is placed on a candidate and exactly 2 minerals
    and 1 vespene are deducted. *)
Theorem gathered_never_negative (sin sqrt : Q -> Q) (rnd : nat -> Q)
    (width height : N) (n : nat) (w : world) :
  steps rnd n (initGrid sin sqrt rnd width height) = Some w ->
  0 <= mineralsGathered w /\ 0 <= vespeneGathered w
  /\ forall tileX tileY w',
       maybeSpawnHatcheryNear rnd tileX tileY w = Some w' ->
       spawnOutcome rnd tileX tileY w w'
       /\ 0 <= mineralsGathered w' /\ 0 <= vespeneGathered w'.
Proof.
  intros Hsteps. apply steps_sustains in Hsteps as [_ M V _ _].
  destruct (initGrid_resources sin sqrt rnd width height)
    as (_ & Hm & Hv & _).
  assert (HM : 0 <= mineralsGathered w) by (apply M; lia).
  assert (HV : 0 <= vespeneGathered w) by (apply V; lia).
  split; [done |]. split; [done |].
  intros tileX tileY w' Hs. split; [by apply maybeSpawn_outcome |].
  apply maybeSpawn_grows in Hs as [E _].
  split; [by apply (ev_gatheredM _ _ E) | by apply (ev_gatheredV _ _ E)].
Qed.

Lemma gathered_never_negative_witness :
  steps zeros 1 twoCells = Some twoCellsNext
  /\ 0 <= mineralsGathered twoCellsNext
  /\ 0 <= vespeneGathered twoCellsNext.
Proof.
  assert (H : steps zeros 1 twoCells = Some twoCellsNext)
    by (vm_compute; reflexivity).
  split; [exact H |].
  rewrite <- twoCells_generated in H.
  pose proof (gathered_never_negative flat flat zeros 16 8 1 twoCellsNext H)
    as (HM & HV & _).
  split; [exact HM | exact HV].
Defined.

(** C7. resourceBoost is 1 at world creation; in every world a sequence
    of steps reaches from there it lies in [1, 3]; a step never lowers it;
    and a discovery check that finds a mineral field sets it to
    min(3, boost + 0.5), one that finds a geyser to min(3, boost + 1), one
    that finds nothing leaves it unchanged, so that no check lowers it or
    takes it above 3. *)
Theorem resourceBoost_bounds (sin sqrt : Q -> Q) (rnd : nat -> Q)
    (width height : N) (n : nat) (w : world) :
  steps rnd n (initGrid sin sqrt rnd width height) = Some w ->
  resourceBoost (initGrid sin sqrt rnd width height) = 1%Q
  /\ (1 <= resourceBoost w /\ resourceBoost w <= 3)%Q
  /\ (forall w', spreadCreep rnd w = Some w' ->
        (resourceBoost w <= resourceBoost w' /\ resourceBoost w' <= 3)%Q)
  /\ (forall idx x y res w',
        checkResource rnd idx x y w = Some (res, w') ->
        resourceBoost w'
        = match res with
          | Some mineral => Qmin 3 (resourceBoost w + 0.5)
          | Some gas => Qmin 3 (resourceBoost w + 1)
          | None => resourceBoost w
          end
        /\ (resourceBoost w <= resourceBoost w'
            /\ resourceBoost w' <= 3)%Q).
Proof.
  intros Hsteps. apply steps_sustains in Hsteps as [B _ _ _ _].
  destruct (initGrid_resources sin sqrt rnd width height) as (Hb & _).
  rewrite Hb in B. destruct (B ltac:(discriminate)) as [H1 H3].
  split; [done |]. split; [done |]. split.
  - intros w' Hs. apply spreadCreep_sustains in Hs as [B' _ _ _ _]. auto.
  - intros idx x y res w' Hc. split.
    + apply checkResource_cases in Hc. destruct res as [[|] |].
      * destruct Hc as (pre & m & post & _ & _ & _ & Hs).
        apply maybeSpawn_frame in Hs as (_ & _ & ->). reflexivity.
      * destruct Hc as (_ & pre & v & post & _ & _ & _ & Hs).
        apply maybeSpawn_frame in Hs as (_ & _ & ->). reflexivity.
      * by destruct Hc as (-> & _).
    + apply checkResource_grows in Hc as [E _]. by apply (ev_boost _ _ E).
Qed.

Lemma resourceBoost_bounds_witness :
  steps lucky 1 fourCells = Some fourCellsNext
  /\ (1 <= resourceBoost fourCellsNext /\ resourceBoost fourCellsNext <= 3)%Q.
Proof.
  assert (H : steps lucky 1 fourCells = Some fourCellsNext)
    by (vm_compute; reflexivity).
  split; [exact H |].
  rewrite <- fourCells_generated in H.
  exact (proj1 (proj2
           (resourceBoost_bounds flat flat lucky 16 16 1 fourCellsNext H))).
Defined.

Lemma inReach_true (radiusSq x y : Z) (d : deposit) :
  inReach radiusSq x y d = true
  <-> depleted d = false /\ closeTo radiusSq x y d.
Proof.
  unfold inReach, closeTo.
  rewrite andb_true_iff, negb_true_iff, Z.ltb_lt. tauto.
Qed.

Lemma inReach_false (radiusSq x y : Z) (d : deposit) :
  inReach radiusSq x y d = false <-> passedOver radiusSq x y d.
Proof.
  unfold inReach, passedOver, closeTo.
  rewrite andb_false_iff, negb_false_iff, Z.ltb_ge. split.
  - intros [H | H]; [by left | right; lia].
  - intros [H | H]; [by left | right; lia].
Qed.

Lemma Forall_passedOver (radiusSq x y : Z) (ds : list deposit) :
  Forall (λ d, inReach radiusSq x y d = false) ds
  <-> Forall (passedOver radiusSq x y) ds.
Proof.
  split; intros H; eapply Forall_impl; try exact H; intros d;
    apply inReach_false.
Qed.

(** C6. A deposit is discovered at most once.  A discovery check changes
    the deposit lists only by marking one deposit depleted; it passes over
    every deposit that is depleted already; when every deposit in reach is
    depleted it returns nothing and leaves the whole world as it was (no
    counter, no boost, no marker, no spawner call); otherwise it takes the
    first mineral field in reach that is not depleted, and a geyser only
    when no such mineral field exists, again the first one; and no later
    step turns a depleted deposit back. *)
Theorem discovery_at_most_once (rnd : nat -> Q) (idx x y : Z) (w w' : world)
    (res : option kind) :
  checkResource rnd idx x y w = Some (res, w') ->
  depositsKept (minerals w) (minerals w')
  /\ depositsKept (vespene w) (vespene w')
  /\ match res with
     | None =>
         w' = w /\ Forall (passedOver 25 x y) (minerals w)
         /\ Forall (passedOver 36 x y) (vespene w)
     | Some mineral =>
         exists pre m post,
           minerals w = pre ++ m :: post
           /\ Forall (passedOver 25 x y) pre
           /\ depleted m = false /\ closeTo 25 x y m
           /\ minerals w' = pre ++ deplete m :: post
           /\ vespene w' = vespene w
     | Some gas =>
         Forall (passedOver 25 x y) (minerals w)
         /\ exists pre v post,
              vespene w = pre ++ v :: post
              /\ Forall (passedOver 36 x y) pre
              /\ depleted v = false /\ closeTo 36 x y v
              /\ vespene w' = pre ++ deplete v :: post
              /\ minerals w' = minerals w
     end
  /\ (Forall (passedOver 25 x y) (minerals w) ->
      Forall (passedOver 36 x y) (vespene w) -> res = None /\ w' = w)
  /\ (forall n w2, steps rnd n w' = Some w2 ->
        depositsKept (minerals w') (minerals w2)
        /\ depositsKept (vespene w') (vespene w2)).
Proof.
  intros Hc.
  pose proof (checkResource_grows _ _ _ _ _ _ _ Hc) as [E _].
  split; [apply (ev_minerals _ _ E) |].
  split; [apply (ev_vespene _ _ E) |].
  apply checkResource_cases in Hc.
  assert (Hcases :
    match res with
    | None =>
        w' = w /\ Forall (passedOver 25 x y) (minerals w)
        /\ Forall (passedOver 36 x y) (vespene w)
    | Some mineral =>
        exists pre m post,
          minerals w = pre ++ m :: post
          /\ Forall (passedOver 25 x y) pre
          /\ depleted m = false /\ closeTo 25 x y m
          /\ minerals w' = pre ++ deplete m :: post
          /\ vespene w' = vespene w
    | Some gas =>
        Forall (passedOver 25 x y) (minerals w)
        /\ exists pre v post,
             vespene w = pre ++ v :: post
             /\ Forall (passedOver 36 x y) pre
             /\ depleted v = false /\ closeTo 36 x y v
             /\ vespene w' = pre ++ deplete v :: post
             /\ minerals w' = minerals w
    end).
  { destruct res as [[|] |].
    - destruct Hc as (pre & m & post & Hw & Hpre & Hin & Hs).
      apply inReach_true in Hin as [Hd Hclose].
      apply maybeSpawn_frame in Hs as (Hmi & Hve & _).
      exists pre, m, post. rewrite Hmi, Hve.
      by rewrite <- Forall_passedOver.
    - destruct Hc as (Hmin & pre & v & post & Hw & Hpre & Hin & Hs).
      apply inReach_true in Hin as [Hd Hclose].
      apply maybeSpawn_frame in Hs as (Hmi & Hve & _).
      split; [by apply Forall_passedOver |].
      exists pre, v, post. rewrite Hmi, Hve.
      by rewrite <- Forall_passedOver.
    - destruct Hc as (-> & Hmin & Hves).
      by rewrite <- !Forall_passedOver. }
  split; [exact Hcases |]. split.
  - intros Hmin Hves. destruct res as [[|] |].
    + exfalso. destruct Hcases as (pre & m & post & Hw & _ & Hd & Hclose & _).
      rewrite Hw in Hmin. apply Forall_app in Hmin as [_ Hmin].
      inversion Hmin as [| ? ? [Hdep | Hfar] _]; subst; [congruence | done].
    + exfalso.
      destruct Hcases as (_ & pre & v & post & Hw & _ & Hd & Hclose & _).
      rewrite Hw in Hves. apply Forall_app in Hves as [_ Hves].
      inversion Hves as [| ? ? [Hdep | Hfar] _]; subst; [congruence | done].
    + by destruct Hcases as (-> & _).
  - intros n w2 Hsteps. apply steps_sustains in Hsteps as [_ _ _ Mi Ve].
    by split.
Qed.

Lemma discovery_at_most_once_witness :
  checkResource lucky 1 1 0 fourCells = Some (Some mineral, fourCellsClaimed)
  /\ depositsKept (minerals fourCells) (minerals fourCellsClaimed).
Proof.
  assert (H : checkResource lucky 1 1 0 fourCells
              = Some (Some mineral, fourCellsClaimed))
    by (vm_compute; reflexivity).
  split; [exact H |].
  exact (proj1 (discovery_at_most_once lucky 1 1 0 fourCells
                  fourCellsClaimed (Some mineral) H)).
Defined.

(** ** Saturation *)

Lemma steps_saturated (rnd : nat -> Q) (n : nat) (w : world) :
  isSaturated w = true -> steps rnd n w = Some w.
Proof.
  intros Hs. induction n as [| n IH]; simpl; [done |].
  unfold spreadCreep. rewrite spreadCreepTrace_saturated by done.
  simpl. exact IH.
Qed.

Lemma reaches98_mono (w : world) (a b : Z) :
  a <= b -> reaches98 a w -> reaches98 b w.
Proof.
  unfold reaches98. intros Hab Ha.
  apply Qle_trans with (inject_Z a); [done |]. by rewrite <- Zle_Qle.
Qed.

(** C4. When the occupied-cell count is at least 0.98 times the total
    cell count at the end of a step, the flag is set: this holds for the
    counter [creepCount] the step compares, and, in the worlds of a cycle,
    for the number of occupied cells of the grid too.  Once the flag is
    set every further call of the step, whatever the random draws, is a
    no-op: it returns the very same world, so occupancy, age, frontier,
    deposits, gathered counters, resourceBoost and the structure list are
    unchanged. *)
Theorem saturation_is_terminal (rnd : nat -> Q) (w w' : world) :
  spreadCreep rnd w = Some w' ->
  (reaches98 (creepCount w') w' -> isSaturated w' = true)
  /\ (cycleInv w -> reaches98 (occupiedCells w') w' -> isSaturated w' = true)
  /\ (isSaturated w' = true ->
      forall (rnd' : nat -> Q) (n : nat),
        spreadCreep rnd' w' = Some w' /\ steps rnd' n w' = Some w').
Proof.
  intros Hstep.
  assert (Hflag : reaches98 (creepCount w') w' -> isSaturated w' = true).
  { pose proof Hstep as Hc.
    apply spreadCreep_cases in Hc as [[Hs ->] | (_ & s1 & _ & ->)];
      [done | apply finishStep_saturated]. }
  split; [exact Hflag |]. split.
  - intros Inv Hocc. apply Hflag.
    apply (reaches98_mono w' (occupiedCells w')); [| done].
    by apply (ci_count w'), (spreadCreep_cycleInv rnd w).
  - intros Hs rnd' n. split; [| by apply steps_saturated].
    unfold spreadCreep. by rewrite spreadCreepTrace_saturated.
Qed.

Lemma saturation_is_terminal_witness :
  spreadCreep zeros twoCells = Some twoCellsNext
  /\ (reaches98 (creepCount twoCellsNext) twoCellsNext ->
      isSaturated twoCellsNext = true).
Proof.
  assert (H : spreadCreep zeros twoCells = Some twoCellsNext)
    by (vm_compute; reflexivity).
  split; [exact H |].
  exact (proj1 (saturation_is_terminal zeros twoCells twoCellsNext H)).
Defined.

(** ** The grid without cells *)

Lemma checkNeighbor_no_cells (rnd : nat -> Q) (b : Q) (idx : Z) (s : scan)
    (has : bool) (d : Z * Z) :
  cols (sw s) * rows (sw s) = 0 -> 0 <= cols (sw s) -> 0 <= rows (sw s) ->
  checkNeighbor rnd b (js_rem idx (cols (sw s)))
    (js_floor_div idx (cols (sw s))) (Some (s, has)) d
  = Some (s, has).
Proof.
  intros Hz Hc Hr. unfold checkNeighbor, js_rem, js_floor_div. simpl.
  destruct (Z.eqb_spec (cols (sw s)) 0) as [He | Hne].
  - rewrite He. destruct (idx =? 0); [done |].
    by destruct (0 <? idx).
  - assert (Hr0 : rows (sw s) = 0) by nia. rewrite Hr0. simpl.
    destruct (Z.rem idx (cols (sw s)) + d.1 <? 0); [done |].
    destruct (cols (sw s) <=? Z.rem idx (cols (sw s)) + d.1); [done |].
    simpl.
    destruct (Z.ltb_spec (idx / cols (sw s) + d.2) 0); [done |].
    destruct (Z.leb_spec 0 (idx / cols (sw s) + d.2)); [done | lia].
Qed.

Lemma checkNeighbors_no_cells (rnd : nat -> Q) (b : Q) (idx : Z) (s : scan)
    (has : bool) (l : list (Z * Z)) :
  cols (sw s) * rows (sw s) = 0 -> 0 <= cols (sw s) -> 0 <= rows (sw s) ->
  foldl (checkNeighbor rnd b (js_rem idx (cols (sw s)))
           (js_floor_div idx (cols (sw s)))) (Some (s, has)) l
  = Some (s, has).
Proof.
  intros Hz Hc Hr. induction l as [| d l IH]; cbn [foldl]; [done |].
  by rewrite checkNeighbor_no_cells.
Qed.

(** The step on a world without cells whose frontier holds one index. *)
Lemma spreadCreep_no_cells (rnd : nat -> Q) (w : world) (k : Z) :
  cols w * rows w = 0 -> 0 <= cols w -> 0 <= rows w ->
  isSaturated w = false -> activeEdges w = [k] -> creepAge w = [] ->
  totalVisibleCells w = 0 -> 0 <= creepCount w ->
  exists w', spreadCreep rnd w = Some w' /\ creepGrid w' = creepGrid w
             /\ isSaturated w' = true.
Proof.
  intros Hz Hc Hr Hs He Ha Ht Hcc.
  unfold spreadCreep, spreadCreepTrace. rewrite Hs.
  unfold scanFuel. rewrite He, Hz. cbn [length Z.to_nat Nat.add scanEdges].
  cbn [sw]. rewrite He. cbn [lookup list_lookup].
  unfold visitEdge. cbn [sw newEdges toRemove trace].
  pose proof (checkNeighbors_no_cells rnd (resourceBoost w) k
                (mkScan w [] [] ([] ++ [Visit k])) false neighbors
                Hz Hc Hr) as Hfold.
  cbn [sw] in Hfold. rewrite Hfold. clear Hfold.
  cbn [sw newEdges toRemove trace]. rewrite Ha.
  cbn [aget]. replace (aget [] k) with (@None Q)
    by (unfold aget; by destruct (k <? 0)).
  cbn [mbind option_bind]. simpl scanEdges. cbn [sw].
  rewrite He. cbn [lookup list_lookup mbind option_bind fmap option_fmap
                   option_map sw].
  eexists. split; [reflexivity |].
  unfold finishStep, checkSaturation.
  cbn [sw toRemove newEdges totalVisibleCells creepCount set_activeEdges].
  rewrite Ht.
  assert (Hq : Qle_bool (inject_Z 0 * 0.98) (inject_Z (creepCount w)) = true).
  { apply Qle_bool_iff. change (inject_Z 0 * 0.98)%Q with (0 * 0.98)%Q.
    apply Qle_trans with (inject_Z 0); [discriminate |].
    by rewrite <- Zle_Qle. }
  rewrite Hq. split; reflexivity.
Qed.


(** C5, as the code has it.  On a grid without cells (no columns or no
    rows) world generation returns a world in which no cell is occupied
    and the saturation flag is still false, while the counter is 1 and the
    frontier holds the index of the seed; the first step then returns,
    occupies nothing and sets the flag, and every later step is a no-op.
    Neither call has a failing path: a typed array read outside its
    bounds gives [undefined] and a write there is ignored. *)
Theorem zero_sized_grid (sin sqrt : Q -> Q) (rnd : nat -> Q)
    (width height : N) :
  cellsAcross width * cellsAcross height = 0 ->
  let w := initGrid sin sqrt rnd width height in
  creepGrid w = [] /\ occupiedCells w = 0 /\ isSaturated w = false
  /\ creepCount w = 1 /\ (exists k, activeEdges w = [k])
  /\ exists w',
       spreadCreep rnd w = Some w' /\ creepGrid w' = []
       /\ occupiedCells w' = 0 /\ isSaturated w' = true
       /\ forall n, steps rnd n w' = Some w'.
Proof.
  intros Hz.
  pose proof (cellsAcross_nonneg width) as Hc.
  pose proof (cellsAcross_nonneg height) as Hr.
  destruct (initGrid_eq sin sqrt rnd width height)
    as (th & ew & n1 & mi & ve & n3 & _ & Heq).
  cbv zeta in Heq |- *.
  rewrite Hz in Heq. change (Z.to_nat 0) with 0%nat in Heq.
  cbn [replicate] in Heq. rewrite !aset_nil in Heq.
  set (w := initGrid sin sqrt rnd width height) in *.
  assert (Hg : creepGrid w = []) by (by rewrite Heq).
  split; [done |].
  split; [unfold occupiedCells; by rewrite Hg |].
  split; [by rewrite Heq |].
  split; [by rewrite Heq |].
  split; [rewrite Heq; by eexists |].
  destruct (spreadCreep_no_cells rnd w
              ((seedCell (cellsAcross width) (cellsAcross height)
                  (classifyTerrain (cellsAcross width) (cellsAcross height)
                     th ew)
                  (pickCorner (cellsAcross width) (cellsAcross height)
                     (Qfloor (rnd n1 * 4)))).2 * cellsAcross width
               + (seedCell (cellsAcross width) (cellsAcross height)
                    (classifyTerrain (cellsAcross width) (cellsAcross height)
                       th ew)
                    (pickCorner (cellsAcross width) (cellsAcross height)
                       (Qfloor (rnd n1 * 4)))).1))
    as (w' & Hstep & Hg' & Hs'); try (by rewrite Heq).
  exists w'. split; [done |]. split; [by rewrite Hg' |].
  split; [unfold occupiedCells; by rewrite Hg', Hg |].
  split; [done |]. intros n. by apply steps_saturated.
Qed.

Lemma zero_sized_grid_witness :
  cellsAcross 0 * cellsAcross 0 = 0
  /\ creepGrid noCells = [] /\ occupiedCells noCells = 0
  /\ isSaturated noCells = false.
Proof.
  assert (H : cellsAcross 0 * cellsAcross 0 = 0) by reflexivity.
  split; [exact H |].
  pose proof (zero_sized_grid flat flat zeros 0 0 H) as Hz.
  cbv zeta in Hz. rewrite noCells_generated in Hz.
  destruct Hz as (H1 & H2 & H3 & _).
  split; [exact H1 |]. split; [exact H2 | exact H3].
Defined.

(** C5, as stated, fails on the window without pixels: after world
    generation no cell is occupied, but the saturation flag is not set. *)
Lemma zero_sized_grid_not_saturated :
  ~ (occupiedCells noCells = 0 /\ isSaturated noCells = true).
Proof. vm_compute. intros [_ H]. discriminate. Qed.

(** C1, as the code has it.  In every world a sequence of steps reaches
    from the generation of a world with cols*rows > 0, the step returns,
    and after it every member of the active-edge set is an occupied cell
    of the grid, and every occupied cell with an unoccupied in-bounds
    8-neighbour is a member.  (A member may have no unoccupied neighbour
    left: it leaves the set only when a later step scans it.) *)
Theorem frontier_after_step (sin sqrt : Q -> Q) (rnd : nat -> Q)
    (width height : N) (n : nat) (w : world) :
  (forall i, (0 <= rnd i)%Q /\ (rnd i < 1)%Q) ->
  0 < cellsAcross width * cellsAcross height ->
  steps rnd n (initGrid sin sqrt rnd width height) = Some w ->
  exists w',
    spreadCreep rnd w = Some w' /\ frontierOccupied w' /\ frontierComplete w'.
Proof.
  intros Hrnd Hsize Hsteps.
  pose proof (cellsAcross_nonneg width) as Hc.
  pose proof (cellsAcross_nonneg height) as Hr.
  assert (Inv : cycleInv w).
  { apply (steps_cycleInv rnd n (initGrid sin sqrt rnd width height) w);
      [| done].
    apply initGrid_cycleInv; nia. }
  destruct (spreadCreep_total rnd Hrnd w) as [w' Hstep].
  exists w'. split; [done |].
  apply (spreadCreep_cycleInv rnd w w' Inv) in Hstep.
  split; [apply (ci_members w' Hstep) | apply (ci_complete w' Hstep)].
Qed.

Lemma frontier_after_step_witness :
  (forall i, (0 <= zeros i)%Q /\ (zeros i < 1)%Q)
  /\ 0 < cellsAcross 16 * cellsAcross 8
  /\ steps zeros 1 twoCells = Some twoCellsNext
  /\ exists w',
       spreadCreep zeros twoCellsNext = Some w'
       /\ frontierOccupied w' /\ frontierComplete w'.
Proof.
  assert (H1 : forall i, (0 <= zeros i)%Q /\ (zeros i < 1)%Q)
    by (intros i; vm_compute; split; [discriminate | reflexivity]).
  assert (H2 : 0 < cellsAcross 16 * cellsAcross 8) by reflexivity.
  assert (H3 : steps zeros 1 twoCells = Some twoCellsNext)
    by (vm_compute; reflexivity).
  split; [exact H1 |]. split; [exact H2 |]. split; [exact H3 |].
  rewrite <- twoCells_generated in H3.
  exact (frontier_after_step flat flat zeros 16 8 1 twoCellsNext H1 H2 H3).
Defined.

(** C1, as stated, fails on the two-cell world: after its first step both
    cells are occupied, so no cell has an unoccupied neighbour, yet both
    cells are members of the active-edge set. *)
Lemma frontier_member_without_empty_neighbour :
  spreadCreep zeros twoCells = Some twoCellsNext
  /\ ~ (frontierSound twoCellsNext /\ frontierComplete twoCellsNext).
Proof.
  split; [vm_compute; reflexivity |].
  intros [Hsound _].
  destruct (Hsound 0) as (x & y & _ & _ & _ & nx & ny & _ & Hin & Hun).
  { vm_compute. left. }
  unfold inWorld, unoccupied, cellIndex in Hin, Hun.
  change (cols twoCellsNext) with 2 in Hin, Hun.
  change (rows twoCellsNext) with 1 in Hin.
  change (creepGrid twoCellsNext) with [1; 1] in Hun.
  assert (Hy : ny = 0) by lia. subst ny.
  assert (Hx : nx = 0 \/ nx = 1) by lia.
  destruct Hx as [-> | ->]; vm_compute in Hun; discriminate.
Qed.

(** ** The growth roll *)

Lemma terrainSpreadMods_table (T : TerrainType) :
  (terrainSpreadMods (typeCode T) == terrainTypeMod T)%Q.
Proof. by destruct T. Qed.

Lemma dirMod_direction (c : corner) (dx dy : Z) :
  (dirMod c dx dy == directionMod c dx dy)%Q.
Proof.
  unfold dirMod, directionMod.
  destruct (Z.eqb_spec dx (dirX c)) as [Hx | Hx];
    destruct (Z.eqb_spec dy (dirY c)) as [Hy | Hy];
    rewrite ?(bool_decide_eq_true_2 _ Hx), ?(bool_decide_eq_false_2 _ Hx),
      ?(bool_decide_eq_true_2 _ Hy), ?(bool_decide_eq_false_2 _ Hy);
    done.
Qed.

Lemma boost_discovery (res : option kind) :
  (match res with Some k => boost k | None => 1 end
   == resourceDiscoveryMod res)%Q.
Proof. by destruct res as [[|] |]. Qed.

Lemma noiseMod_threshold (v : Q) :
  (noiseMod (Some v) == (if Qlt_bool 0.75 v then 1.5 else 1.0))%Q.
Proof. unfold noiseMod. by destruct (Qlt_bool 0.75 v). Qed.

Lemma rollRaw_agrees (b : Q) (w : world) (e : event) :
  wellFormed w -> rollRaw b w e -> rollAgrees b w e.
Proof.
  intros [Hc Hr Ht Hg Ha Hh Hy Hn Hty].
  destruct e as [| nidx dx dy res live chance draw]; [done |].
  intros [Hrange Hchance]. simpl.
  destruct (aget_in_range (terrainType w) nidx) as [t Htype]; [lia |].
  destruct (aget_in_range (terrainHeight w) nidx) as [h Hheight]; [lia |].
  destruct (aget_in_range (noiseTexture1 w) nidx) as [v Hnoise]; [lia |].
  destruct (Hty t) as [T ->].
  { unfold aget in Htype. destruct (nidx <? 0); [discriminate |].
    by apply list_elem_of_lookup_2 in Htype. }
  rewrite Htype, Hheight, Hnoise in Hchance.
  cbn [fmap option_fmap option_map] in Hchance.
  exists T, h, v. eexists. split; [done |]. split; [done |].
  split; [done |]. split; [exact Hchance |].
  unfold specChance.
  by rewrite terrainSpreadMods_table, dirMod_direction, boost_discovery,
    noiseMod_threshold.
Qed.

(** C3, as the code has it.  In a step of a world of a cycle, every
    growth roll compares the draw with
    0.002 * boost * (1 - height(n) * 0.5) * terrainTypeMod(n) * directionMod
    * resourceDiscoveryMod * noiseMod, with the modifiers of the
    specification, where boost is the value resourceBoost had when the
    step began (a discovery made during the step raises resourceBoost but
    not the boost of that step's rolls). *)
Theorem growth_chance_formula (sin sqrt : Q -> Q) (rnd : nat -> Q)
    (width height : N) (n : nat) (w : world) (s : scan) :
  0 < cellsAcross width * cellsAcross height ->
  steps rnd n (initGrid sin sqrt rnd width height) = Some w ->
  spreadCreepTrace rnd w = Some s ->
  Forall (rollAgrees (resourceBoost w) w) (trace s).
Proof.
  intros Hsize Hsteps Htrace.
  pose proof (cellsAcross_nonneg width) as Hc.
  pose proof (cellsAcross_nonneg height) as Hr.
  assert (Inv : cycleInv w).
  { apply (steps_cycleInv rnd n (initGrid sin sqrt rnd width height) w);
      [| done].
    apply initGrid_cycleInv; nia. }
  destruct (isSaturated w) eqn:Hs.
  - rewrite spreadCreepTrace_saturated in Htrace by done.
    apply Some_eq in Htrace. subst s. constructor.
  - apply spreadCreepTrace_growing in Htrace as (s1 & _ & G & ->); [| done].
    destruct (sg_trace _ _ _ G) as (evs & Hevs & Hraw).
    cbn [trace sw] in Hevs |- *. rewrite Hevs. cbn [app].
    cbn [sw] in Hraw. eapply Forall_impl; [exact Hraw |].
    intros e. apply rollRaw_agrees, (ci_wf w Inv).
Qed.

Lemma growth_chance_formula_witness :
  0 < cellsAcross 16 * cellsAcross 16
  /\ steps lucky 0 fourCells = Some fourCells
  /\ spreadCreepTrace lucky fourCells = Some fourCellsScan
  /\ Forall (rollAgrees (resourceBoost fourCells) fourCells)
       (trace fourCellsScan).
Proof.
  assert (H1 : 0 < cellsAcross 16 * cellsAcross 16) by reflexivity.
  assert (H2 : steps lucky 0 fourCells = Some fourCells) by reflexivity.
  assert (H3 : spreadCreepTrace lucky fourCells = Some fourCellsScan)
    by (vm_compute; reflexivity).
  split; [exact H1 |]. split; [exact H2 |]. split; [exact H3 |].
  rewrite <- fourCells_generated in H2 at 1.
  exact (growth_chance_formula flat flat lucky 16 16 0 fourCells
           fourCellsScan H1 H2 H3).
Defined.

(** C3, as stated, fails in the first step of the 2 x 2 world: the check
    at the cell (1, 0) discovers a mineral field and raises resourceBoost
    to 1.5, and the roll that follows still uses 1. *)
Lemma growth_chance_not_live_boost :
  spreadCreepTrace lucky fourCells = Some fourCellsScan
  /\ ~ Forall (rollAgreesLive fourCells) (trace fourCellsScan).
Proof.
  split; [vm_compute; reflexivity |].
  intros HF. unfold fourCellsScan in HF. cbn [trace] in HF.
  apply Forall_cons in HF as [_ HF]. apply Forall_cons in HF as [H _].
  destruct H as (T & h & v & c & Htype & Hheight & Hnoise & Hc & Heq).
  assert (Ht0 : aget (terrainType fourCells) 1 = Some 0)
    by (vm_compute; reflexivity).
  rewrite Ht0 in Htype.
  assert (HT : T = LowGround) by (destruct T; simpl in Htype; congruence).
  subst T.
  match type of Hc with
  | Some ?C = _ =>
      assert (Hneg : Qeq_bool C
                (specChance 1.5 fourCells 1 1 0 (Some mineral) LowGround
                   (default 0%Q (aget (terrainHeight fourCells) 1))
                   (default 0%Q (aget (noiseTexture1 fourCells) 1)))
              = false) by (vm_compute; reflexivity)
  end.
  rewrite Hheight, Hnoise in Hneg. cbn [default] in Hneg.
  unfold id in Hneg. apply Some_eq in Hc. subst c.
  apply Qeq_bool_iff in Heq. congruence.
Qed.

(** ** The step that spawns a hatchery *)

(** C2 at a failing input.  The 2 x 2 world starts its first step with
    the seed cell 0 as the only member of the active-edge set.  The check
    at the third neighbour discovers the geyser, the spawner places a
    hatchery on the seed and adds the cells 1, 2 and 3 to the set, and the
    scan of this same step goes on to visit them. *)
Lemma spawned_cells_scanned_in_same_step :
  spreadCreepTrace lucky fourCells = Some fourCellsScan
  /\ activeEdges fourCells = [0]
  /\ Visit 1 ∈ trace fourCellsScan
  /\ Visit 2 ∈ trace fourCellsScan
  /\ Visit 3 ∈ trace fourCellsScan.
Proof.
  split; [vm_compute; reflexivity |].
  split; [vm_compute; reflexivity |].
  unfold fourCellsScan. cbn [trace].
  split; [apply list_elem_of_lookup; by exists 4%nat |].
  split; [apply list_elem_of_lookup; by exists 5%nat |].
  apply list_elem_of_lookup. by exists 6%nat.
Qed.

(** C10 at a failing input.  After world generation the counter and the
    grid of the 2 x 2 world agree on one occupied cell.  In the first step
    the spawner occupies and counts the cells 1, 2 and 3 while the check
    at the cell 3 is running; the growth roll for the cell 3 then succeeds
    and counts that cell a second time: the counter is 5 and the grid has
    4 cells. *)
Lemma creepCount_counts_cell_twice :
  creepCount fourCells = 1 /\ occupiedCells fourCells = 1
  /\ spreadCreep lucky fourCells = Some fourCellsNext
  /\ creepCount fourCellsNext = 5 /\ occupiedCells fourCellsNext = 4.
Proof.
  split; [vm_compute; reflexivity |]. split; [vm_compute; reflexivity |].
  split; [vm_compute; reflexivity |]. split; vm_compute; reflexivity.
Qed.
